(** * DataParasite curation helpers: the JSONL annotation viewer and the CSV grid

    A shallow embedding of the two React components of the repository:
    - [JsonlViewer] (folder-backed viewer with autosave, and its upload/download
      sibling of the browser extension): load loop, annotation overlay,
      [saveToDisk], the [useDebounce] timer;
    - [CsvViewer]: cell selection, keyboard handling, adding, inserting and
      deleting columns, resizing columns and rows.

    Conventions of the embedding.
    - A JavaScript value is a [value]; an object is the ordered list of its own
      enumerable properties (insertion order, as [Object.keys], spread and
      [JSON.stringify] see it; integer-like keys are not moved to the front).
      A property read looks at the own properties first and then follows the
      prototype chain, where it finds the members of the standard prototypes
      (ECMAScript 2024 with Annex B) and [length]; an assignment to
      [__proto__] replaces the prototype instead of adding a property.
    - A thrown exception is [None] in the [option] monad; the enclosing
      [try]/[catch] of the source decides what happens next.
    - The components are ES modules, hence strict-mode code: assigning a
      property on a primitive throws a TypeError.
    - [JSON.parse] and [JSON.stringify] are built-ins, taken as parameters.
    - A [string] is a sequence of code units.
    - The event loop is a sequence of events: user actions, the passing of
      time (which lets a due timer run its callback) and the settling of an
      outstanding write.  Opening a file is asynchronous: it is given both as
      one event, the load that nothing interrupts, and in the parts between
      which other handlers can run.  State that only drives the display
      ([loading], [saveStatus], the file list) is left out. *)

From Stdlib Require Import QArith DecimalString Ascii.
From stdpp Require Import base option list strings gmap sorting.

Close Scope Q_scope.
Set Warnings "-register-all".
Open Scope string_scope.
Open Scope list_scope.

(** ** JavaScript values *)

Inductive number :=
| Finite (q : Q)
| Infinity (negative : bool).

(** [VObj] is an object or an array whose prototype is the standard one, as
    [JSON.parse], an object literal and a spread create them.  [VObjOnDefault]
    is an ordinary object whose prototype has been replaced by a default
    annotation object [{ correctness: 'unchecked', comment: '' }].  [VBuiltin]
    is a built-in function or prototype object, found through the prototype
    chain, with the enumerable properties added to it. *)
Inductive value :=
| VUndefined
| VNull
| VBool (b : bool)
| VNum (n : number)
| VStr (s : string)
| VObj (isArray : bool) (props : list (string * value))
| VObjOnDefault (props : list (string * value))
| VBuiltin (name : string) (props : list (string * value)).

(** ToBoolean. *)
Definition truthy (v : value) : bool :=
  match v with
  | VUndefined | VNull => false
  | VBool b => b
  | VNum (Finite q) => negb (Qeq_bool q 0)
  | VNum (Infinity _) => true
  | VStr s => negb (String.eqb s "")
  | VObj _ _ | VObjOnDefault _ | VBuiltin _ _ => true
  end.

(** [a || b] *)
Definition js_or (a b : value) : value := if truthy a then a else b.

(** ** Ordered property lists *)

Fixpoint assoc_get {A} (k : string) (ps : list (string * A)) : option A :=
  match ps with
  | [] => None
  | (k', x) :: r => if String.eqb k k' then Some x else assoc_get k r
  end.

(** [o[k] = x]: overwrite in place when the key exists, append otherwise. *)
Fixpoint assoc_set {A} (k : string) (x : A) (ps : list (string * A))
  : list (string * A) :=
  match ps with
  | [] => [(k, x)]
  | (k', y) :: r =>
      if String.eqb k k' then (k', x) :: r else (k', y) :: assoc_set k x r
  end.

Definition index_key (i : nat) : string :=
  NilZero.string_of_uint (Nat.to_uint i).

(** Own enumerable properties: what [Object.keys] and [{...v}] enumerate. *)
Definition own_props (v : value) : list (string * value) :=
  match v with
  | VObj _ ps | VObjOnDefault ps | VBuiltin _ ps => ps
  | VStr s =>
      imap (fun i c => (index_key i, VStr (String c ""))) (String.list_ascii_of_string s)
  | _ => []
  end.

(** [Object.keys(v)] *)
Definition Object_keys (v : value) : list string := (own_props v).*1.

Definition includes (ks : list string) (k : string) : bool :=
  existsb (String.eqb k) ks.

(** [{ correctness: 'unchecked', comment: '' }] *)
Definition default_annotation : value :=
  VObj false [("correctness", VStr "unchecked"); ("comment", VStr "")].

(** *** The prototype chain *)

(** The string-keyed property names of the standard prototypes, as of
    ECMAScript 2024 with its Annex B. *)
Definition OBJECT_PROTOTYPE : list string :=
  [ "constructor"; "hasOwnProperty"; "isPrototypeOf"; "propertyIsEnumerable";
    "toLocaleString"; "toString"; "valueOf"; "__proto__";
    "__defineGetter__"; "__defineSetter__";
    "__lookupGetter__"; "__lookupSetter__" ].

Definition ARRAY_PROTOTYPE : list string :=
  [ "constructor"; "at"; "concat"; "copyWithin"; "entries"; "every"; "fill";
    "filter"; "find"; "findIndex"; "findLast"; "findLastIndex"; "flat";
    "flatMap"; "forEach"; "includes"; "indexOf"; "join"; "keys";
    "lastIndexOf"; "map"; "pop"; "push"; "reduce"; "reduceRight"; "reverse";
    "shift"; "slice"; "some"; "sort"; "splice"; "toLocaleString";
    "toReversed"; "toSorted"; "toSpliced"; "toString"; "unshift"; "values";
    "with" ].

Definition STRING_PROTOTYPE : list string :=
  [ "constructor"; "at"; "charAt"; "charCodeAt"; "codePointAt"; "concat";
    "endsWith"; "includes"; "indexOf"; "isWellFormed"; "lastIndexOf";
    "localeCompare"; "match"; "matchAll"; "normalize"; "padEnd"; "padStart";
    "repeat"; "replace"; "replaceAll"; "search"; "slice"; "split";
    "startsWith"; "substring"; "toLocaleLowerCase"; "toLocaleUpperCase";
    "toLowerCase"; "toString"; "toUpperCase"; "toWellFormed"; "trim";
    "trimEnd"; "trimStart"; "valueOf"; "substr"; "anchor"; "big"; "blink";
    "bold"; "fixed"; "fontcolor"; "fontsize"; "italics"; "link"; "small";
    "strike"; "sub"; "sup"; "trimLeft"; "trimRight" ].

Definition NUMBER_PROTOTYPE : list string :=
  [ "constructor"; "toExponential"; "toFixed"; "toLocaleString";
    "toPrecision"; "toString"; "valueOf" ].

Definition BOOLEAN_PROTOTYPE : list string :=
  [ "constructor"; "toString"; "valueOf" ].

(** The member [k] of the prototype [owner], if it has one. *)
Definition member (owner : string) (members : list string) (k : string)
  : option value :=
  if includes members k then Some (VBuiltin (owner +:+ "." +:+ k) []) else None.

(** The first of two lookups that finds something. *)
Definition or_else (a b : option value) : option value :=
  match a with Some x => Some x | None => b end.

Definition number_of_nat (n : nat) : value :=
  VNum (Finite (inject_Z (Z.of_nat n))).

(** [length] of an array: the number of its index properties. *)
Definition array_length (ps : list (string * value)) : nat :=
  length (List.filter
            (fun p => existsb (fun i => String.eqb (index_key i) p.1)
                        (seq 0 (length ps)))
            ps).

(** What a read of [v[k]] finds beyond the own enumerable properties of [v]:
    [length], then the prototype chain. *)
Definition inherited (v : value) (k : string) : value :=
  let object := member "Object.prototype" OBJECT_PROTOTYPE k in
  default VUndefined
    match v with
    | VUndefined | VNull => None
    | VBool _ => or_else (member "Boolean.prototype" BOOLEAN_PROTOTYPE k) object
    | VNum _ => or_else (member "Number.prototype" NUMBER_PROTOTYPE k) object
    | VStr s =>
        if String.eqb k "length" then Some (number_of_nat (String.length s))
        else or_else (member "String.prototype" STRING_PROTOTYPE k) object
    | VObj true ps =>
        if String.eqb k "length" then Some (number_of_nat (array_length ps))
        else or_else (member "Array.prototype" ARRAY_PROTOTYPE k) object
    | VObj false _ | VBuiltin _ _ => object
    | VObjOnDefault _ =>
        if String.eqb k "__proto__" then Some default_annotation
        else or_else (assoc_get k (own_props default_annotation)) object
    end.

(** Property read [v[k]] on a value that is neither null nor undefined. *)
Definition prop (v : value) (k : string) : value :=
  match assoc_get k (own_props v) with
  | Some x => x
  | None => inherited v k
  end.

Arguments prop : simpl never.
Arguments inherited : simpl never.

(** Property read with the TypeError of reading off null or undefined. *)
Definition js_get (v : value) (k : string) : option value :=
  match v with
  | VUndefined | VNull => None
  | _ => Some (prop v k)
  end.

(** Strict-mode assignment [v[k] = x] for a key other than [__proto__];
    returns the mutated object. *)
Definition js_set (v : value) (k : string) (x : value) : option value :=
  match v with
  | VObj a ps => Some (VObj a (assoc_set k x ps))
  | VObjOnDefault ps => Some (VObjOnDefault (assoc_set k x ps))
  | VBuiltin n ps => Some (VBuiltin n (assoc_set k x ps))
  | _ => None
  end.

(** Object spread [{...v}]. *)
Definition spread (v : value) : list (string * value) := own_props v.

(** ** Text helpers *)

Definition newline : ascii := ascii_of_nat 10.
Definition nl : string := String newline "".

(** [s.split('\n')] *)
Fixpoint split_lines (s : string) : list string :=
  match s with
  | "" => [""]
  | String c r =>
      if Ascii.eqb c newline then "" :: split_lines r
      else match split_lines r with
           | l :: ls => String c l :: ls
           | [] => [String c ""]
           end
  end.

(** [lines.join('\n')] *)
Definition join_lines (ls : list string) : string := String.concat nl ls.

(** White space and line terminators stripped by [trim] (code units below 256). *)
Definition is_space (c : ascii) : bool :=
  let n := nat_of_ascii c in
  (Nat.leb 9 n && Nat.leb n 13) || Nat.eqb n 32 || Nat.eqb n 160.

(** [line.trim()] used as a condition: true when something is left. *)
Definition nonblank (line : string) : bool :=
  existsb (fun c => negb (is_space c)) (String.list_ascii_of_string line).

(** ** The annotation model *)

Definition UA : string := "user_annotations".
Definition PROTO : string := "__proto__".

Definition TELEMETRY_KEYS : list string :=
  [ "input_mutation_id"; "timestamp"; "model"; "response_id";
    "input_tokens"; "output_tokens"; "cached_tokens";
    "web_search_calls"; "total_cost"; "duration_seconds"; "status";
    "user_annotations" ].

(** [newAnnot[key] = { correctness: 'unchecked', comment: '' }] on the object
    under construction: for the key [__proto__] the assignment runs the setter
    inherited from [Object.prototype], which makes the assigned object the
    prototype of [newAnnot] and adds no property. *)
Definition init_assign (newAnnot : value) (key : string) : value :=
  if String.eqb key "__proto__" then VObjOnDefault (own_props newAnnot)
  else match newAnnot with
       | VObjOnDefault ps =>
           VObjOnDefault (assoc_set key default_annotation ps)
       | _ => VObj false (assoc_set key default_annotation (own_props newAnnot))
       end.

(** The callback of [Object.keys(originalObj).forEach(key => ...)]. *)
Definition init_step (newAnnot : value) (key : string) : value :=
  if negb (includes TELEMETRY_KEYS key)
  then init_assign newAnnot key
  else newAnnot.

Definition initializeAnnotations (originalObj : value) : value :=
  foldl init_step (VObj false []) (Object_keys originalObj).

(** The annotation object a record carries, when it is truthy. *)
Definition carried (obj : value) : option value :=
  let ua := prop obj UA in if truthy ua then Some ua else None.

Section Jsonl.

Variable JSON_parse : string -> option value.
Variable JSON_stringify : value -> string.

(** *** Loading ([handleSelectFile], parse loop) *)

Record load_state := LoadState {
  parsedEntries : list value;
  loadedAnnotations : gmap nat value;
  logged : list nat            (* line numbers passed to console.error *)
}.

Definition load_init : load_state := LoadState [] ∅ [].

(** The statements of the [try] block after [JSON.parse], up to the value
    that is pushed. *)
Definition prepare (isNew : bool) (obj : value) : option value :=
  if isNew then
    ua ← js_get obj UA;
    if negb (truthy ua) then js_set obj UA (initializeAnnotations obj)
    else Some obj
  else Some obj.

Definition try_line (isNew : bool) (line : string) (st : load_state)
  : option load_state :=
  obj ← JSON_parse line;
  obj ← prepare isNew obj;
  ua ← js_get obj UA;
  let n := length (parsedEntries st) in
  let annots :=
    if truthy ua then <[n := ua]> (loadedAnnotations st)
    else loadedAnnotations st in
  Some (LoadState (parsedEntries st ++ [obj]) annots (logged st)).

(** One iteration of [lines.forEach((line, idx) => ...)]. *)
Definition load_line (isNew : bool) (st : load_state) (idx : nat)
  (line : string) : load_state :=
  if nonblank line then
    match try_line isNew line st with
    | Some st' => st'
    | None =>
        LoadState (parsedEntries st) (loadedAnnotations st) (logged st ++ [idx])
    end
  else st.

Fixpoint load_loop (isNew : bool) (lines : list string) (idx : nat)
  (st : load_state) : load_state :=
  match lines with
  | [] => st
  | line :: rest => load_loop isNew rest (S idx) (load_line isNew st idx line)
  end.

Definition load_lines (isNew : bool) (lines : list string) : load_state :=
  load_loop isNew lines 0 load_init.

Definition load (isNew : bool) (fileContent : string) : load_state :=
  load_lines isNew (split_lines fileContent).

(** The upload handler of the extension: the same loop without the
    new-session initialisation. *)
Definition handleFileUpload_line (st : load_state) (idx : nat) (line : string)
  : load_state :=
  if nonblank line then
    match
      obj ← JSON_parse line;
      ua ← js_get obj UA;
      let n := length (parsedEntries st) in
      let annots :=
        if truthy ua then <[n := ua]> (loadedAnnotations st)
        else loadedAnnotations st in
      Some (LoadState (parsedEntries st ++ [obj]) annots (logged st))
    with
    | Some st' => st'
    | None =>
        LoadState (parsedEntries st) (loadedAnnotations st) (logged st ++ [idx])
    end
  else st.

Fixpoint upload_loop (lines : list string) (idx : nat) (st : load_state)
  : load_state :=
  match lines with
  | [] => st
  | line :: rest => upload_loop rest (S idx) (handleFileUpload_line st idx line)
  end.

Definition handleFileUpload (text : string) : load_state :=
  upload_loop (split_lines text) 0 load_init.

(** *** Serialising ([saveToDisk], [handleDownload]) *)

(** The callback of [currentEntries.map((entry, idx) => ...)], before
    [JSON.stringify]. *)
Definition merge_entry (currentAnnotations : gmap nat value) (idx : nat)
  (entry : value) : value :=
  let newEntry := spread entry in
  match currentAnnotations !! idx with
  | Some entryAnnot =>
      if truthy entryAnnot then VObj false (assoc_set UA entryAnnot newEntry)
      else VObj false newEntry
  | None => VObj false newEntry
  end.

Definition output_objects (currentEntries : list value)
  (currentAnnotations : gmap nat value) : list value :=
  imap (merge_entry currentAnnotations) currentEntries.

Definition output_text (currentEntries : list value)
  (currentAnnotations : gmap nat value) : string :=
  join_lines (JSON_stringify <$> output_objects currentEntries currentAnnotations).

(** *** Annotation updates ([handleAnnotationChange]) *)

(** The updater passed to [setAnnotations]. *)
Definition annotate (currentIndex : nat) (key field : string) (v : value)
  (prev : gmap nat value) : gmap nat value :=
  let currentEntryAnnots :=
    js_or (default VUndefined (prev !! currentIndex)) (VObj false []) in
  let fieldAnnot := js_or (prop currentEntryAnnots key) default_annotation in
  <[currentIndex :=
      VObj false
        (assoc_set key
           (VObj false (assoc_set field v (spread fieldAnnot)))
           (spread currentEntryAnnots))]> prev.

(** *** The session: component state, directory, timer and writes *)

Record write := Write { w_handle : string; w_text : string }.

Record save_args := SaveArgs {
  sa_handle : string;
  sa_entries : list value;
  sa_annotations : gmap nat value
}.

Record session := Session {
  entries : list value;
  annotations : gmap nat value;
  currentIndex : nat;
  currentFileHandle : option string;
  outputFileHandle : option string;
  dir : gmap string string;              (* the folder behind dirHandle *)
  clock : nat;
  timeoutRef : option (nat * save_args); (* pending timer: deadline, arguments *)
  inflight : list write;                 (* writeFileText calls not yet settled *)
  issued : list (nat * write);           (* every writeFileText call, with the
                                            number of writes in flight then *)
  alerts : nat
}.

Definition delay : nat := 500.

(** [saveToDisk(handle, currentEntries, currentAnnotations)] up to the call of
    [writeFileText]. *)
Definition saveToDisk (handle : option string) (currentEntries : list value)
  (currentAnnotations : gmap nat value) (s : session) : session :=
  match handle with
  | None => s
  | Some h =>
      let w := Write h (output_text currentEntries currentAnnotations) in
      Session (entries s) (annotations s) (currentIndex s)
        (currentFileHandle s) (outputFileHandle s) (dir s) (clock s)
        (timeoutRef s) (inflight s ++ [w])
        (issued s ++ [(length (inflight s), w)]) (alerts s)
  end.

(** [debouncedSave(...)]: clear the pending timer, start a new one. *)
Definition debouncedSave (args : save_args) (s : session) : session :=
  Session (entries s) (annotations s) (currentIndex s)
    (currentFileHandle s) (outputFileHandle s) (dir s) (clock s)
    (Some (clock s + delay, args)) (inflight s) (issued s) (alerts s).

Definition handleAnnotationChange (key field : string) (v : value)
  (s : session) : session :=
  let newAnnotations := annotate (currentIndex s) key field v (annotations s) in
  let s' :=
    match outputFileHandle s with
    | Some h => debouncedSave (SaveArgs h (entries s) newAnnotations) s
    | None => s
    end in
  Session (entries s') newAnnotations (currentIndex s')
    (currentFileHandle s') (outputFileHandle s') (dir s') (clock s')
    (timeoutRef s') (inflight s') (issued s') (alerts s').

(** [inputFilename.replace(pat, rep)]: the first occurrence only. *)
Fixpoint replace_first (pat rep s : string) : string :=
  if String.prefix pat s
  then rep +:+ String.substring (String.length pat)
                 (String.length s - String.length pat) s
  else match s with
       | "" => ""
       | String c r => String c (replace_first pat rep r)
       end.

Definition outputFilename (inputFilename : string) : string :=
  replace_first ".jsonl" "_annotated.jsonl" inputFilename.

(** [handleSelectFile(fileHandle)], run from its call to its end with no other
    handler in between.  A file that is not in the folder makes
    [getFileHandle] or [getFile] throw NotFoundError.  The function is
    asynchronous: its parts around the awaits are [handleSelectFile_reset],
    [handleSelectFile_reads] and [handleSelectFile_finish] below, and other
    handlers can run between them. *)
Definition handleSelectFile (name : string) (s : session) : session :=
  let out := outputFilename name in
  let reset d ofh al :=
    Session [] ∅ 0 (Some name) ofh d (clock s) (timeoutRef s)
      (inflight s) (issued s) al in
  match dir s !! out with
  | Some fileContent =>
      let st := load false fileContent in
      Session (parsedEntries st) (loadedAnnotations st) 0 (Some name)
        (Some out) (dir s) (clock s) (timeoutRef s) (inflight s) (issued s)
        (alerts s)
  | None =>
      let d := <[out := ""]> (dir s) in
      match d !! name with
      | Some fileContent =>
          let st := load true fileContent in
          saveToDisk (Some out) (parsedEntries st) (loadedAnnotations st)
            (Session (parsedEntries st) (loadedAnnotations st) 0 (Some name)
               (Some out) d (clock s) (timeoutRef s) (inflight s) (issued s)
               (alerts s))
      | None => reset d (outputFileHandle s) (S (alerts s))
      end
  end.

(** The part of [handleSelectFile] before its first await: the entries, the
    overlay and the index are reset and the current file is set. *)
Definition handleSelectFile_reset (name : string) (s : session) : session :=
  Session [] ∅ 0 (Some name) (outputFileHandle s) (dir s) (clock s)
    (timeoutRef s) (inflight s) (issued s) (alerts s).

(** The awaited reads of [handleSelectFile] on a folder that nothing else
    touches meanwhile: the folder they leave (the output file is created when
    it is missing) and what they find, [isNew] with the text to parse, or
    nothing when the source file cannot be read. *)
Definition handleSelectFile_reads (name : string) (d : gmap string string)
  : gmap string string * option (bool * string) :=
  let out := outputFilename name in
  match d !! out with
  | Some fileContent => (d, Some (false, fileContent))
  | None =>
      let d' := <[out := ""]> d in
      (d', match d' !! name with
           | Some fileContent => Some (true, fileContent)
           | None => None
           end)
  end.

(** The folder of the session becomes [d]. *)
Definition with_dir (d : gmap string string) (s : session) : session :=
  Session (entries s) (annotations s) (currentIndex s) (currentFileHandle s)
    (outputFileHandle s) d (clock s) (timeoutRef s) (inflight s) (issued s)
    (alerts s).

(** The part of [handleSelectFile] after its reads, given what they found:
    the output handle, the entries and the overlay are set, the index and the
    current file are left as they are found, and a new file is written at
    once; a failed read ends in the alert. *)
Definition handleSelectFile_finish (name : string)
  (found : option (bool * string)) (s : session) : session :=
  let out := outputFilename name in
  match found with
  | Some (isNew, fileContent) =>
      let st := load isNew fileContent in
      let s' :=
        Session (parsedEntries st) (loadedAnnotations st) (currentIndex s)
          (currentFileHandle s) (Some out) (dir s) (clock s) (timeoutRef s)
          (inflight s) (issued s) (alerts s) in
      if isNew
      then saveToDisk (Some out) (parsedEntries st) (loadedAnnotations st) s'
      else s'
  | None =>
      Session (entries s) (annotations s) (currentIndex s)
        (currentFileHandle s) (outputFileHandle s) (dir s) (clock s)
        (timeoutRef s) (inflight s) (issued s) (S (alerts s))
  end.

Definition nextEntry (s : session) : session :=
  if Z.ltb (Z.of_nat (currentIndex s)) (Z.of_nat (length (entries s)) - 1)
  then Session (entries s) (annotations s) (currentIndex s + 1)
         (currentFileHandle s) (outputFileHandle s) (dir s) (clock s)
         (timeoutRef s) (inflight s) (issued s) (alerts s)
  else s.

Definition prevEntry (s : session) : session :=
  if Nat.ltb 0 (currentIndex s)
  then Session (entries s) (annotations s) (currentIndex s - 1)
         (currentFileHandle s) (outputFileHandle s) (dir s) (clock s)
         (timeoutRef s) (inflight s) (issued s) (alerts s)
  else s.

(** Time passes; a timer whose deadline is reached runs its callback. *)
Definition elapse (dt : nat) (s : session) : session :=
  let now := clock s + dt in
  match timeoutRef s with
  | Some (deadline, args) =>
      if Nat.leb deadline now then
        saveToDisk (Some (sa_handle args)) (sa_entries args)
          (sa_annotations args)
          (Session (entries s) (annotations s) (currentIndex s)
             (currentFileHandle s) (outputFileHandle s) (dir s) now
             None (inflight s) (issued s) (alerts s))
      else
        Session (entries s) (annotations s) (currentIndex s)
          (currentFileHandle s) (outputFileHandle s) (dir s) now
          (timeoutRef s) (inflight s) (issued s) (alerts s)
  | None =>
      Session (entries s) (annotations s) (currentIndex s)
        (currentFileHandle s) (outputFileHandle s) (dir s) now
        None (inflight s) (issued s) (alerts s)
  end.

(** The oldest outstanding [writeFileText] resolves. *)
Definition settle (s : session) : session :=
  match inflight s with
  | [] => s
  | w :: rest =>
      Session (entries s) (annotations s) (currentIndex s)
        (currentFileHandle s) (outputFileHandle s)
        (<[w_handle w := w_text w]> (dir s)) (clock s)
        (timeoutRef s) rest (issued s) (alerts s)
  end.

Inductive event :=
| SelectFile (name : string)
| AnnotationChange (key field : string) (v : value)
| NextEntry
| PrevEntry
| Elapse (dt : nat)
| WriteSettles.

Definition step (s : session) (e : event) : session :=
  match e with
  | SelectFile name => handleSelectFile name s
  | AnnotationChange key field v => handleAnnotationChange key field v s
  | NextEntry => nextEntry s
  | PrevEntry => prevEntry s
  | Elapse dt => elapse dt s
  | WriteSettles => settle s
  end.

Definition run (s : session) (evs : list event) : session := foldl step s evs.

Definition initial (d : gmap string string) : session :=
  Session [] ∅ 0 None None d 0 None [] [] 0.

(** What can happen to a session when loads are not taken as one step: a
    handler that runs to its end, the start of a load, its reads of the
    folder, or its last part, run with what the reads found. *)
Inductive action :=
| Handler (e : event)
| LoadStarts (name : string)
| LoadReads (name : string)
| LoadFinishes (name : string) (found : option (bool * string)).

Definition act (s : session) (a : action) : session :=
  match a with
  | Handler e => step s e
  | LoadStarts name => handleSelectFile_reset name s
  | LoadReads name => with_dir (handleSelectFile_reads name (dir s)).1 s
  | LoadFinishes name found => handleSelectFile_finish name found s
  end.

(** No write was issued while another one was outstanding. *)
Definition overlap_free (s : session) : Prop :=
  Forall (fun iw => iw.1 = 0) (issued s).

(** A burst of mutations, each followed by a pause. *)
Fixpoint burst (ms : list (string * string * value * nat)) : list event :=
  match ms with
  | [] => []
  | (key, field, v, gap) :: rest =>
      AnnotationChange key field v :: Elapse gap :: burst rest
  end.

(** The overlays after each mutation of a burst. *)
Fixpoint overlays (i : nat) (a : gmap nat value)
  (ms : list (string * string * value * nat)) : list (gmap nat value) :=
  match ms with
  | [] => []
  | (key, field, v, _) :: rest =>
      let a' := annotate i key field v a in a' :: overlays i a' rest
  end.

End Jsonl.

(** ** The CSV grid ([CsvViewer]) *)

Module Csv.

(** [{ row, col }]; [col] is undefined when [headers[i]] is out of range. *)
Record cell := Cell { row : Z; col : option string }.

Record grid := Grid {
  data : list (gmap string string);
  headers : list string;
  selectedCell : option cell;
  isEditing : bool;
  contextMenu : option (string * nat)    (* header, index *)
}.

Inductive key :=
| Enter | Escape | ArrowUp | ArrowDown | ArrowLeft | ArrowRight | OtherKey.

(** [headers.indexOf(header)] *)
Fixpoint indexOf (hs : list string) (h : string) : Z :=
  match hs with
  | [] => -1
  | x :: r =>
      if String.eqb x h then 0
      else let i := indexOf r h in if Z.ltb i 0 then -1 else i + 1
  end%Z.

(** [xs[i]] for a number [i] *)
Definition at_index {A} (xs : list A) (i : Z) : option A :=
  if Z.ltb i 0 then None else xs !! Z.to_nat i.

(** [row[header] = value] on a row, a plain object: the field is set, except
    that the name [__proto__], in a row with no field of that name, is the
    prototype setter, which ignores a string and adds no field. *)
Definition set_cell (r : gmap string string) (header value : string)
  : gmap string string :=
  if String.eqb header "__proto__" && bool_decide (r !! header = None) then r
  else <[header := value]> r.

(** [newData[rowIndex][header] = value] on a copy of the array; the rows are
    shared with the old array.  A missing row makes the assignment throw. *)
Definition handleCellChange (rowIndex : Z) (header value : string)
  (g : grid) : option grid :=
  r ← at_index (data g) rowIndex;
  Some (Grid (<[Z.to_nat rowIndex := set_cell r header value]> (data g))
          (headers g) (selectedCell g) (isEditing g) (contextMenu g)).

Definition setIsEditing (b : bool) (g : grid) : grid :=
  Grid (data g) (headers g) (selectedCell g) b (contextMenu g).

Definition setSelectedCell (c : option cell) (g : grid) : grid :=
  Grid (data g) (headers g) c (isEditing g) (contextMenu g).

Definition handleCellClick (rowIndex : Z) (header : string) (g : grid) : grid :=
  setIsEditing false (setSelectedCell (Some (Cell rowIndex (Some header))) g).

Definition handleCellDoubleClick (rowIndex : Z) (header : string) (g : grid)
  : grid :=
  setIsEditing true (setSelectedCell (Some (Cell rowIndex (Some header))) g).

(** [handleKeyDown(e, rowIndex, header)] with [e.key] and [e.target.innerText]. *)
Definition handleKeyDown (k : key) (innerText : string) (rowIndex : Z)
  (header : string) (g : grid) : option grid :=
  let len := Z.of_nat (length (data g)) in
  if isEditing g then
    match k with
    | Enter =>
        g1 ← handleCellChange rowIndex header innerText g;
        let nextRow := Z.min (len - 1) (rowIndex + 1) in
        Some (setSelectedCell (Some (Cell nextRow (Some header)))
                (setIsEditing false g1))
    | Escape => Some (setIsEditing false g)
    | ArrowUp | ArrowDown =>
        g1 ← handleCellChange rowIndex header innerText g;
        let direction := match k with ArrowUp => (-1)%Z | _ => 1%Z end in
        let nextRow := Z.max 0 (Z.min (len - 1) (rowIndex + direction)) in
        Some (setSelectedCell (Some (Cell nextRow (Some header)))
                (setIsEditing false g1))
    | _ => Some g
    end
  else
    let colIdx := indexOf (headers g) header in
    let move nextRow nextColIdx :=
      Some (setSelectedCell
              (Some (Cell nextRow (at_index (headers g) nextColIdx))) g) in
    match k with
    | ArrowUp => move (Z.max 0 (rowIndex - 1)) colIdx
    | ArrowDown => move (Z.min (len - 1) (rowIndex + 1)) colIdx
    | ArrowLeft => move rowIndex (Z.max 0 (colIdx - 1))
    | ArrowRight =>
        move rowIndex (Z.min (Z.of_nat (length (headers g)) - 1) (colIdx + 1))
    | Enter => Some (setIsEditing true g)
    | _ => move rowIndex colIdx
    end.

Definition handleContextMenu (header : string) (index : nat) (g : grid) : grid :=
  Grid (data g) (headers g) (selectedCell g) (isEditing g) (Some (header, index)).

Definition handleCloseContextMenu (g : grid) : grid :=
  Grid (data g) (headers g) (selectedCell g) (isEditing g) None.

(** [handleDeleteColumn()]; [confirmed] is the answer to [confirm(...)]. *)
Definition handleDeleteColumn (confirmed : bool) (g : grid) : grid :=
  match contextMenu g with
  | None => g
  | Some (header, _) =>
      let g1 :=
        if confirmed then
          Grid (data g)
            (filter (fun h => h ≠ header) (headers g))
            (selectedCell g) (isEditing g) (contextMenu g)
        else g in
      handleCloseContextMenu g1
  end.

(** The value a row holds for a header: its own field of that name. *)
Definition cell_value (g : grid) (rowIndex : Z) (header : string)
  : option string :=
  r ← at_index (data g) rowIndex; r !! header.

(** Every key of every row is a header. *)
Definition row_invariant (g : grid) : Prop :=
  Forall (fun r : gmap string string => dom r ⊆ list_to_set (headers g))
         (data g).

End Csv.

(** ** Sample inputs *)

Definition dq : string := String (ascii_of_nat 34) "".
Definition quoted (s : string) : string := dq +:+ s +:+ dq.

(** [{"a":"x"}] *)
Definition line_a : string := "{" +:+ quoted "a" +:+ ":" +:+ quoted "x" +:+ "}".
Definition obj_a : value := VObj false [("a", VStr "x")].

Definition annot_yes : value :=
  VObj false [("correctness", VStr "yes"); ("comment", VStr "ok")].

(** [{"b":"y","user_annotations":{"c":{"correctness":"yes","comment":"ok"}}}] *)
Definition line_b : string :=
  "{" +:+ quoted "b" +:+ ":" +:+ quoted "y" +:+ ","
  +:+ quoted "user_annotations" +:+ ":{" +:+ quoted "c" +:+ ":{"
  +:+ quoted "correctness" +:+ ":" +:+ quoted "yes" +:+ ","
  +:+ quoted "comment" +:+ ":" +:+ quoted "ok" +:+ "}}}".
Definition obj_b : value :=
  VObj false [("b", VStr "y"); (UA, VObj false [("c", annot_yes)])].

(** A line that is not JSON. *)
Definition line_bad : string := "{oops".

(** [JSON.parse] on the sample lines; everything else is taken as a
    SyntaxError. *)
Definition sample_parse (line : string) : option value :=
  assoc_get line [(line_a, obj_a); (line_b, obj_b); ("null", VNull)].

(** [JSON.stringify] for strings without escapes, booleans, null, integers
    and objects of these. *)
Fixpoint sample_stringify (v : value) : string :=
  match v with
  | VUndefined | VNull => "null"
  | VBool true => "true"
  | VBool false => "false"
  | VNum (Finite q) => NilZero.string_of_int (Z.to_int (Qnum q))
  | VNum (Infinity _) => "null"
  | VStr s => quoted s
  | VObj _ ps | VObjOnDefault ps | VBuiltin _ ps =>
      "{" +:+
      (fix members (ps : list (string * value)) : string :=
         match ps with
         | [] => ""
         | [(k, x)] => quoted k +:+ ":" +:+ sample_stringify x
         | (k, x) :: r =>
             quoted k +:+ ":" +:+ sample_stringify x +:+ "," +:+ members r
         end) ps
      +:+ "}"
  end.

(** ** Vocabulary of the statements *)

(** The values of the non-blank lines that [JSON.parse] accepts, in order. *)
Definition parsed_values (JSON_parse : string -> option value)
  (lines : list string) : list value :=
  omap (fun line => if nonblank line then JSON_parse line else None) lines.

(** Whether the rest of the [try] block completes on a parsed value: reading a
    property off null throws, and so does annotating a primitive. *)
Definition completes (isNew : bool) (v : value) : bool :=
  match v with
  | VUndefined | VNull => false
  | VObj _ _ | VObjOnDefault _ | VBuiltin _ _ => true
  | _ => negb isNew
  end.

(** [o] has the fields of [v], the annotation field apart. *)
Definition same_fields (v o : value) : Prop :=
  ∀ k, k ≠ UA → assoc_get k (own_props o) = assoc_get k (own_props v).

Definition is_plain_object (v : value) : Prop := ∃ ps, v = VObj false ps.

(** The value pushed for a parsed value, when the [try] block completes. *)
Definition pushed (isNew : bool) (v : value) : option value :=
  obj ← prepare isNew v; _ ← js_get obj UA; Some obj.

(** What one line contributes to the entries. *)
Definition accept (JSON_parse : string -> option value) (isNew : bool)
  (line : string) : option value :=
  if nonblank line then JSON_parse line ≫= pushed isNew else None.

(** Every overlay entry sits at the index of the record that carries it. *)
Definition overlay_ok (es : list value) (an : gmap nat value) : Prop :=
  ∀ i, an !! i = es !! i ≫= carried.

(** Sample file contents. *)
Definition text_mixed : string :=
  line_a +:+ nl +:+ line_bad +:+ nl +:+ nl +:+ line_b.

(** The overlay after a sequence of mutations. *)
Fixpoint apply_mutations (i : nat) (a : gmap nat value)
  (ms : list (string * string * value * nat)) : gmap nat value :=
  match ms with
  | [] => a
  | (key, field, v, _) :: rest =>
      apply_mutations i (annotate i key field v a) rest
  end.

(** [a[i][k]] and [a[i][k][f]], undefined when a level is missing. *)
Definition overlay_field (a : gmap nat value) (i : nat) (k : string)
  : option value :=
  assoc_get k (own_props (default VUndefined (a !! i))).

Definition overlay_subfield (a : gmap nat value) (i : nat) (k f : string)
  : option value :=
  assoc_get f (own_props (default VUndefined (overlay_field a i k))).

(** Folders holding one source file, and the session after opening it. *)
Definition folder_a : gmap string string := {[ "d.jsonl" := line_a ]}.
Definition folder_b : gmap string string := {[ "d.jsonl" := line_b ]}.

(** A folder with a source file of two records and one of a single record. *)
Definition folder_two : gmap string string :=
  {[ "d.jsonl" := line_a +:+ nl +:+ line_b; "e.jsonl" := line_a ]}.

(** Two loads that overlap: the file of one record is selected while the load
    of the other is under way, and its load finishes last, after a Next.  Each
    load finds its output file missing and reads its source file. *)
Definition overlapping_loads : list action :=
  [LoadStarts "d.jsonl"; LoadReads "d.jsonl";
   LoadStarts "e.jsonl"; LoadReads "e.jsonl";
   LoadFinishes "d.jsonl" (Some (true, line_a +:+ nl +:+ line_b));
   Handler NextEntry;
   LoadFinishes "e.jsonl" (Some (true, line_a))].

(** A session on one record with a field named [constructor], opened without
    annotations, as after an upload or from an output file that has none. *)
Definition session_constructor : session :=
  Session [VObj false [("constructor", VStr "x")]] ∅ 0 None None ∅ 0 None
    [] [] 0.

(** The bootstrap write is still outstanding. *)
Definition session_opened : session :=
  run sample_parse sample_stringify (initial folder_a) [SelectFile "d.jsonl"].

(** The bootstrap write has settled. *)
Definition session_a : session :=
  run sample_parse sample_stringify (initial folder_a)
    [SelectFile "d.jsonl"; WriteSettles].

(** A one-row table with two columns, the context menu open on column A. *)
Definition grid_ab : Csv.grid :=
  Csv.Grid [ {[ "A" := "1"; "B" := "2" ]} ] ["A"; "B"]
    (Some (Csv.Cell 0 (Some "A"))) true (Some ("A", 0)).


(** ** The file list ([refreshFileList]) *)

(** [s.endsWith(suffix)] *)
Fixpoint endsWith (s suffix : string) : bool :=
  String.eqb s suffix
  || match s with
     | "" => false
     | String _ r => endsWith r suffix
     end.

(** [entry.kind] *)
Inductive entry_kind := KFile | KDirectory.

(** The test guarding [files.push(entry)]. *)
Definition listable (e : entry_kind * string) : bool :=
  match e.1 with
  | KFile => endsWith e.2 ".jsonl" && negb (endsWith e.2 "_annotated.jsonl")
  | KDirectory => false
  end.

(** The names of the listed files; [sortByName] stands for
    [files.sort((a, b) => a.name.localeCompare(b.name))]. *)
Definition refreshFileList (sortByName : list string → list string)
  (dirEntries : list (entry_kind * string)) : list string :=
  sortByName (List.filter listable dirEntries).*2.

(** A sort to run the list with: merge sort on the code-unit order. *)
Definition sample_sort : list string → list string :=
  @merge_sort string (fun a b => String.leb a b = true)
    (fun a b => bool_eq_dec (String.leb a b) true).

(** Whether a text has no line break. *)
Definition single_line (s : string) : bool :=
  forallb (fun c => negb (Ascii.eqb c newline)) (String.list_ascii_of_string s).

(** ** Columns of the grid ([handleAddColumn], [handleInsertColumn]) *)

Module CsvColumns.
Import Csv.

(** [data.map(row => ({ ...row, [newColumnName]: '' }))] *)
Definition backfill (newColumnName : string) (rows : list (gmap string string))
  : list (gmap string string) :=
  (fun row => <[newColumnName := ""]> row) <$> rows.

(** [handleAddColumn()]; [answer] is what [prompt] returned. *)
Definition handleAddColumn (answer : option string) (g : grid) : grid :=
  match answer with
  | Some newColumnName =>
      if negb (String.eqb newColumnName "")
         && negb (includes (headers g) newColumnName)
      then Grid (backfill newColumnName (data g))
             (headers g ++ [newColumnName])
             (selectedCell g) (isEditing g) (contextMenu g)
      else g
  | None => g
  end.

Inductive direction := InsertLeft | InsertRight.

(** [handleInsertColumn(direction)] *)
Definition handleInsertColumn (d : direction) (answer : option string)
  (g : grid) : grid :=
  match contextMenu g with
  | None => g
  | Some (_, index) =>
      match answer with
      | Some newColumnName =>
          if String.eqb newColumnName "" || includes (headers g) newColumnName
          then handleCloseContextMenu g
          else
            let insertIndex :=
              match d with InsertLeft => index | InsertRight => index + 1 end in
            handleCloseContextMenu
              (Grid (backfill newColumnName (data g))
                 (take insertIndex (headers g)
                  ++ newColumnName :: drop insertIndex (headers g))
                 (selectedCell g) (isEditing g) (contextMenu g))
      | None => handleCloseContextMenu g
      end
  end.

(** Every row has a value for every header. *)
Definition rows_complete (g : grid) : Prop :=
  Forall (fun r : gmap string string =>
            ∀ h, h ∈ headers g → is_Some (r !! h)) (data g).

(** The selected cell, if any, is a cell of the grid. *)
Definition selection_in_grid (g : grid) : Prop :=
  match selectedCell g with
  | None => True
  | Some c =>
      (0 ≤ row c < Z.of_nat (length (data g)))%Z
      ∧ ∃ h, col c = Some h ∧ h ∈ headers g
  end.

End CsvColumns.

(** ** Resizing columns and rows *)

Module CsvResize.

(** [type] and [id] of a resize handle. *)
Inductive target := Column (id : string) | RowOf (id : nat).

(** A stored size, the result of [Math.max]: a number or NaN. *)
Inductive size := Px (n : Z) | NaN.

#[global] Instance size_eq_dec : EqDecision size.
Proof. solve_decision. Defined.

(** What the read [columnWidths[id]] finds: an own width, the member of
    [Object.prototype] of that name, or nothing. *)
Inductive found := Own (w : size) | Member (name : string) | Missing.

(** [startSize]: a number, or the object found on the prototype chain. *)
Inductive start_size := Number (n : Z) | Object (name : string).

(** [startSize + diff]: a number, or the text of the object followed by the
    digits of [diff]. *)
Inductive sum := SumNumber (n : Z) | SumText (name : string) (diff : Z).

Record resize := Resize {
  columnWidths : gmap string size;
  rowHeights : gmap nat size;
  resizingRef : option (target * Z * start_size);  (* handle, start, startSize *)
  listening : bool                          (* document listeners attached *)
}.

(** [columnWidths[id]], through the prototype chain of a plain object. *)
Definition width_of (widths : gmap string size) (id : string) : found :=
  match widths !! id with
  | Some w => Own w
  | None => if includes OBJECT_PROTOTYPE id then Member id else Missing
  end.

(** [columnWidths[id] || 150]: zero, NaN and undefined are falsy, an object
    is not. *)
Definition width_or (x : found) (d : Z) : start_size :=
  match x with
  | Own (Px n) => if Z.eqb n 0 then Number d else Number n
  | Own NaN => Number d
  | Member name => Object name
  | Missing => Number d
  end.

(** [rowHeights[id] || 'auto'], with 'auto' then taken as 30; the key is a
    row number, which names no inherited member. *)
Definition height_or (x : option size) (d : Z) : start_size :=
  match x with
  | Some (Px n) => if Z.eqb n 0 then Number d else Number n
  | Some NaN => Number d
  | None => Number d
  end.

Definition handleMouseDown (clientX clientY : Z) (t : target) (st : resize)
  : resize :=
  let effectiveStartSize :=
    match t with
    | Column id => width_or (width_of (columnWidths st) id) 150
    | RowOf id => height_or (rowHeights st !! id) 30
    end in
  let start := match t with Column _ => clientX | RowOf _ => clientY end in
  Resize (columnWidths st) (rowHeights st)
    (Some (t, start, effectiveStartSize)) true.

(** [startSize + diff] *)
Definition plus (startSize : start_size) (diff : Z) : sum :=
  match startSize with
  | Number n => SumNumber (n + diff)
  | Object name => SumText name diff
  end.

(** [Math.max(least, x)]: the text of an object followed by digits is no
    numeral, so it converts to NaN, and so does the maximum. *)
Definition Math_max (least : Z) (x : sum) : size :=
  match x with
  | SumNumber n => Px (Z.max least n)
  | SumText _ _ => NaN
  end.

Definition handleMouseMove (clientX clientY : Z) (st : resize) : resize :=
  match resizingRef st with
  | None => st
  | Some (Column id, start, startSize) =>
      let diff := (clientX - start)%Z in
      let newWidth := Math_max 50 (plus startSize diff) in
      Resize (<[id := newWidth]> (columnWidths st)) (rowHeights st)
        (resizingRef st) (listening st)
  | Some (RowOf id, start, startSize) =>
      let diff := (clientY - start)%Z in
      let newHeight := Math_max 30 (plus startSize diff) in
      Resize (columnWidths st) (<[id := newHeight]> (rowHeights st))
        (resizingRef st) (listening st)
  end.

Definition handleMouseUp (st : resize) : resize :=
  match resizingRef st with
  | Some _ => Resize (columnWidths st) (rowHeights st) None false
  | None => st
  end.

(** [!columnWidths[h]] *)
Definition width_falsy (x : found) : bool :=
  match x with
  | Own (Px n) => Z.eqb n 0
  | Own NaN => true
  | Member _ => false
  | Missing => true
  end.

(** [initialWidths[h] = 150] on a plain object: the name [__proto__] is the
    prototype setter, which ignores a number and adds no property. *)
Definition set_default_width (initialWidths : gmap string size) (h : string)
  : gmap string size :=
  if String.eqb h "__proto__" then initialWidths
  else <[h := Px 150]> initialWidths.

(** The effect run when [headers] changes; the spread of [initialWidths] goes
    over that of [prev]. *)
Definition initializeWidths (headers : list string) (st : resize) : resize :=
  let initialWidths :=
    foldl (fun acc h =>
             if width_falsy (width_of (columnWidths st) h)
             then set_default_width acc h else acc)
      ∅ headers in
  Resize (initialWidths ∪ columnWidths st)
    (rowHeights st) (resizingRef st) (listening st).

Inductive resize_event :=
| MouseDown (clientX clientY : Z) (t : target)
| MouseMove (clientX clientY : Z)
| MouseUp
| HeadersChanged (headers : list string).

Definition resize_step (st : resize) (e : resize_event) : resize :=
  match e with
  | MouseDown x y t => handleMouseDown x y t st
  | MouseMove x y => handleMouseMove x y st
  | MouseUp => handleMouseUp st
  | HeadersChanged hs => initializeWidths hs st
  end.

Definition resize_init : resize := Resize ∅ ∅ None false.

(** A stored column width is a number not below 50, or NaN under a name that
    [Object.prototype] has; a stored row height is a number not below 30. *)
Definition sizes_bounded (st : resize) : Prop :=
  (∀ h w, columnWidths st !! h = Some w →
     match w with
     | Px n => (50 ≤ n)%Z
     | NaN => includes OBJECT_PROTOTYPE h = true
     end)
  ∧ (∀ i w, rowHeights st !! i = Some w → ∃ n, w = Px n ∧ (30 ≤ n)%Z).

(** The start size of a drag is an object only for a column whose name
    [Object.prototype] has. *)
Definition drag_ok (st : resize) : Prop :=
  match resizingRef st with
  | Some (Column id, _, Object name) =>
      name = id ∧ includes OBJECT_PROTOTYPE id = true
  | Some (RowOf _, _, Object _) => False
  | _ => True
  end.

End CsvResize.

(** ** Property lists *)

Section Assoc.
Context {A : Type}.
Implicit Types (k : string) (x : A) (ps : list (string * A)).

Lemma assoc_get_set_eq k x ps : assoc_get k (assoc_set k x ps) = Some x.
Proof.
  induction ps as [|[k' y] r IH]; simpl.
  - by rewrite String.eqb_refl.
  - destruct (String.eqb k k') eqn:E; simpl; rewrite E; [done | exact IH].
Qed.

Lemma assoc_get_set_ne k k' x ps :
  k ≠ k' → assoc_get k' (assoc_set k x ps) = assoc_get k' ps.
Proof.
  intros Hne. induction ps as [|[k0 y] r IH]; simpl.
  - destruct (String.eqb_spec k' k); congruence.
  - destruct (String.eqb_spec k k0) as [->|Hk]; simpl.
    + destruct (String.eqb_spec k' k0); congruence.
    + destruct (String.eqb_spec k' k0); [done | exact IH].
Qed.

Lemma assoc_set_id k x ps : assoc_get k ps = Some x → assoc_set k x ps = ps.
Proof.
  induction ps as [|[k' y] r IH]; simpl; [done |].
  destruct (String.eqb_spec k k') as [->|Hk]; intros H.
  - by simplify_eq.
  - by rewrite IH.
Qed.

End Assoc.

Lemma index_key_not_UA i : index_key i ≠ UA.
Proof.
  unfold index_key, NilZero.string_of_uint, UA.
  destruct (Nat.to_uint i); simpl; discriminate.
Qed.

Lemma string_props_no_UA (f : ascii → value) cs n :
  assoc_get UA (imap (fun i c => (index_key (n + i), f c)) cs) = None.
Proof.
  revert n. induction cs as [|c cs IH]; intros n; [done |].
  rewrite imap_cons. cbn [assoc_get].
  destruct (String.eqb_spec UA (index_key (n + 0))) as [E|_].
  - by destruct (index_key_not_UA (n + 0)).
  - rewrite <- (IH (S n)). f_equal. apply imap_ext. intros i x _. simpl.
    by rewrite Nat.add_succ_r.
Qed.

Lemma inherited_UA v : inherited v UA = VUndefined.
Proof. destruct v as [| |b|n|str|[|] ps|ps|nm ps]; reflexivity. Qed.

Lemma prop_UA_own v :
  prop v UA = default VUndefined (assoc_get UA (own_props v)).
Proof.
  unfold prop. destruct (assoc_get UA (own_props v)); [done |].
  apply inherited_UA.
Qed.

Lemma prop_primitive_UA v :
  match v with
  | VObj _ _ | VObjOnDefault _ | VBuiltin _ _ => False
  | _ => True
  end → prop v UA = VUndefined.
Proof.
  rewrite prop_UA_own. destruct v; simpl; try done. intros _.
  by rewrite (string_props_no_UA (fun c => VStr (String c "")) _ 0).
Qed.

Lemma truthy_prop_Some v a :
  prop v UA = a → truthy a = true → assoc_get UA (own_props v) = Some a.
Proof.
  rewrite prop_UA_own.
  destruct (assoc_get UA (own_props v)); simpl; intros <-; [done |].
  discriminate.
Qed.

Lemma prop_own v k x : assoc_get k (own_props v) = Some x → prop v k = x.
Proof. unfold prop. by intros ->. Qed.

(** ** Loading *)

Lemma js_get_Some obj ua : js_get obj UA = Some ua → ua = prop obj UA.
Proof. destruct obj; simpl; congruence. Qed.

Lemma pushed_completes isNew v :
  is_Some (pushed isNew v) ↔ completes isNew v = true.
Proof.
  unfold pushed, prepare.
  destruct isNew, v as [| |b|n|s|a ps|ps|nm ps]; simpl;
    rewrite ?(prop_primitive_UA (VBool b) I), ?(prop_primitive_UA (VNum n) I),
      ?(prop_primitive_UA (VStr s) I); simpl;
    try (destruct (truthy (prop _ UA)); simpl);
    (split; [first [done | by intros [? ?] | by eauto]
            | first [done | by eauto]]).
Qed.

Lemma pushed_same_fields isNew v e : pushed isNew v = Some e → same_fields v e.
Proof.
  unfold pushed, prepare. intros H k Hk.
  destruct isNew; simpl in H.
  - destruct (js_get v UA) as [ua|] eqn:Hg; simpl in H; [| done].
    destruct (truthy ua); simpl in H.
    + destruct (js_get v UA); by simplify_eq/=.
    + destruct v; simpl in H; try done; simplify_eq/=;
        by apply assoc_get_set_ne.
  - destruct (js_get v UA); by simplify_eq/=.
Qed.

Section LoadFacts.

Variable JSON_parse : string -> option value.
Implicit Types (st : load_state) (lines : list string).

Lemma handleFileUpload_line_load st idx line :
  handleFileUpload_line JSON_parse st idx line
  = load_line JSON_parse false st idx line.
Proof.
  unfold handleFileUpload_line, load_line, try_line, prepare.
  destruct (nonblank line); [| done].
  by destruct (JSON_parse line).
Qed.

Lemma handleFileUpload_load text :
  handleFileUpload JSON_parse text = load JSON_parse false text.
Proof.
  unfold handleFileUpload, load, load_lines.
  generalize 0 load_init.
  induction (split_lines text) as [|line lines IH]; intros idx st; simpl.
  - done.
  - by rewrite IH, handleFileUpload_line_load.
Qed.

Lemma load_line_entries isNew st idx line :
  parsedEntries (load_line JSON_parse isNew st idx line)
  = parsedEntries st ++ option_list (accept JSON_parse isNew line).
Proof.
  unfold load_line, accept, try_line, pushed.
  destruct (nonblank line); simpl; [| by rewrite app_nil_r].
  destruct (JSON_parse line) as [obj|]; simpl; [| by rewrite app_nil_r].
  destruct (prepare isNew obj) as [obj'|]; simpl; [| by rewrite app_nil_r].
  destruct (js_get obj' UA); simpl; [done | by rewrite app_nil_r].
Qed.

Lemma load_line_overlay isNew st idx line :
  overlay_ok (parsedEntries st) (loadedAnnotations st) →
  let st' := load_line JSON_parse isNew st idx line in
  overlay_ok (parsedEntries st') (loadedAnnotations st').
Proof.
  intros Hok. unfold load_line, try_line.
  destruct (nonblank line); simpl; [| done].
  destruct (JSON_parse line) as [obj|]; simpl; [| done].
  destruct (prepare isNew obj) as [obj'|]; simpl; [| done].
  destruct (js_get obj' UA) as [ua|] eqn:Hg; simpl; [| done].
  apply js_get_Some in Hg. intros i.
  destruct (lt_eq_lt_dec i (length (parsedEntries st))) as [[Hlt| ->]|Hgt].
  - rewrite lookup_app_l by done.
    destruct (truthy ua); [rewrite lookup_insert_ne by lia |]; apply Hok.
  - rewrite list_lookup_middle by done. simpl. unfold carried. rewrite <- Hg.
    destruct (truthy ua); [by rewrite lookup_insert_eq |].
    rewrite Hok, lookup_ge_None_2; [done | lia].
  - rewrite (lookup_ge_None_2 (_ ++ _)) by (rewrite length_app; simpl; lia).
    destruct (truthy ua); [rewrite lookup_insert_ne by lia |];
      rewrite Hok, lookup_ge_None_2; (done || lia).
Qed.

Lemma load_line_logged isNew st idx line :
  logged st `prefix_of` logged (load_line JSON_parse isNew st idx line).
Proof.
  unfold load_line, try_line.
  destruct (nonblank line); simpl; [| done].
  destruct (JSON_parse line) as [obj|]; simpl; [| by apply prefix_app_r].
  destruct (prepare isNew obj) as [obj'|]; simpl; [| by apply prefix_app_r].
  destruct (js_get obj' UA); simpl; [done | by apply prefix_app_r].
Qed.

Lemma load_line_malformed isNew st idx line :
  JSON_parse line = None →
  load_line JSON_parse isNew st idx line
  = if nonblank line
    then LoadState (parsedEntries st) (loadedAnnotations st) (logged st ++ [idx])
    else st.
Proof. intros H. unfold load_line, try_line. by rewrite H. Qed.

Lemma load_loop_app isNew l1 l2 idx st :
  load_loop JSON_parse isNew (l1 ++ l2) idx st
  = load_loop JSON_parse isNew l2 (idx + length l1)
      (load_loop JSON_parse isNew l1 idx st).
Proof.
  revert idx st. induction l1 as [|x l1 IH]; intros idx st; simpl.
  - by rewrite Nat.add_0_r.
  - rewrite IH. f_equal. lia.
Qed.

Lemma load_loop_entries isNew lines idx st :
  parsedEntries (load_loop JSON_parse isNew lines idx st)
  = parsedEntries st ++ omap (accept JSON_parse isNew) lines.
Proof.
  revert idx st. induction lines as [|x lines IH]; intros idx st; simpl.
  - by rewrite app_nil_r.
  - rewrite IH, load_line_entries, <- app_assoc. f_equal.
    by destruct (accept JSON_parse isNew x).
Qed.

Lemma load_loop_overlay isNew lines idx st :
  overlay_ok (parsedEntries st) (loadedAnnotations st) →
  let st' := load_loop JSON_parse isNew lines idx st in
  overlay_ok (parsedEntries st') (loadedAnnotations st').
Proof.
  revert idx st. induction lines as [|x lines IH]; intros idx st Hok; simpl.
  - done.
  - apply IH. by apply load_line_overlay.
Qed.

Lemma load_loop_logged_prefix isNew lines idx st :
  logged st `prefix_of` logged (load_loop JSON_parse isNew lines idx st).
Proof.
  revert idx st. induction lines as [|x lines IH]; intros idx st; simpl.
  - done.
  - etrans; [apply load_line_logged | apply IH].
Qed.

Lemma load_lines_overlay isNew lines :
  let st := load_lines JSON_parse isNew lines in
  overlay_ok (parsedEntries st) (loadedAnnotations st).
Proof.
  apply load_loop_overlay. intros i. simpl. by rewrite lookup_empty.
Qed.

Lemma overlay_ok_unique es an1 an2 :
  overlay_ok es an1 → overlay_ok es an2 → an1 = an2.
Proof. intros H1 H2. apply map_eq. intros i. by rewrite H1, H2. Qed.

Lemma accept_pushed isNew lines :
  omap (accept JSON_parse isNew) lines
  = omap (pushed isNew) (parsed_values JSON_parse lines).
Proof.
  unfold parsed_values. induction lines as [|x lines IH]; csimpl; [done |].
  rewrite IH. unfold accept. destruct (nonblank x); csimpl; [| done].
  by destruct (JSON_parse x) as [v|].
Qed.

End LoadFacts.

(** ** Serialising what was loaded *)

Lemma output_objects_loaded es an :
  overlay_ok es an →
  output_objects es an = (fun e => VObj false (own_props e)) <$> es.
Proof.
  intros Hok. unfold output_objects. rewrite <- imap_const.
  apply imap_ext. intros i e He. unfold merge_entry, spread.
  rewrite Hok, He. simpl. unfold carried.
  destruct (truthy (prop e UA)) eqn:Ht; [| done].
  rewrite Ht. by rewrite (assoc_set_id _ _ _ (truthy_prop_Some e _ eq_refl Ht)).
Qed.

Lemma Forall2_pushed isNew vs :
  Forall2 (fun v e => pushed isNew v = Some e)
    (filter (fun v => completes isNew v = true) vs) (omap (pushed isNew) vs).
Proof.
  induction vs as [|v vs IH]; csimpl; [constructor |].
  rewrite filter_cons. destruct (pushed isNew v) as [e|] eqn:Hp.
  - rewrite decide_True by (apply pushed_completes; eauto). by constructor.
  - rewrite decide_False; [done |].
    intros Hc%pushed_completes. rewrite Hp in Hc. by destruct Hc.
Qed.

Section JsonlTheorems.

Variable JSON_parse : string -> option value.
Variable JSON_stringify : value -> string.

(** C1.  Round trip.  For every input text, in a new session as well as in a
    resumed one, the text written by [saveToDisk] for the loaded entries and
    overlay is the newline-joined JSON of one plain object per parsed record,
    in the order of the lines; each emitted object has exactly the fields of
    the value its line parsed to, the annotation field apart.  The parsed
    records are the values of the non-blank lines that [JSON.parse] accepts and
    on which the rest of the [try] block completes; every JSON object (and
    array) does. *)
Theorem load_save_roundtrip (text : string) (isNew : bool) :
  let st := load JSON_parse isNew text in
  let records :=
    filter (fun v => completes isNew v = true)
      (parsed_values JSON_parse (split_lines text)) in
  let outs := output_objects (parsedEntries st) (loadedAnnotations st) in
  output_text JSON_stringify (parsedEntries st) (loadedAnnotations st)
    = join_lines (JSON_stringify <$> outs)
  ∧ Forall2 (fun v o => is_plain_object o ∧ same_fields v o) records outs
  ∧ (∀ a ps, VObj a ps ∈ parsed_values JSON_parse (split_lines text) →
             VObj a ps ∈ records).
Proof.
  intros st records outs. split; [done |]. split.
  - subst outs st records. unfold load.
    rewrite output_objects_loaded by apply load_lines_overlay.
    unfold load_lines. rewrite load_loop_entries. simpl.
    rewrite accept_pushed. apply Forall2_fmap_r.
    eapply Forall2_impl; [apply Forall2_pushed |].
    intros v e Hp. split; [by eexists |].
    exact (pushed_same_fields _ _ _ Hp).
  - intros a ps Hin. subst records. by apply list_elem_of_filter.
Qed.

(** C7.  A line that [JSON.parse] rejects does not abort the load: the entries
    and the overlay are those of the same lines without it, its line number is
    logged when the line is not blank, and every non-blank line before or after
    it that parses to a record (a value on which the [try] block completes,
    as every JSON object does) is in the entries with its fields. *)
Theorem malformed_line_dropped (isNew : bool) (text : string)
  (before : list string) (bad : string) (after : list string) :
  split_lines text = before ++ bad :: after →
  JSON_parse bad = None →
  let st := load JSON_parse isNew text in
  let st' := load_lines JSON_parse isNew (before ++ after) in
  parsedEntries st = parsedEntries st'
  ∧ loadedAnnotations st = loadedAnnotations st'
  ∧ (nonblank bad = true → length before ∈ logged st)
  ∧ (∀ line v, line ∈ before ++ after → nonblank line = true →
       JSON_parse line = Some v → completes isNew v = true →
       ∃ e, e ∈ parsedEntries st ∧ same_fields v e)
  ∧ (∀ a ps, completes isNew (VObj a ps) = true).
Proof.
  intros Hsplit Hbad st st'.
  assert (Hacc : accept JSON_parse isNew bad = None).
  { unfold accept. rewrite Hbad. by destruct (nonblank bad). }
  assert (Hent : parsedEntries st = parsedEntries st').
  { subst st st'. unfold load, load_lines. rewrite Hsplit.
    rewrite !load_loop_entries. simpl. rewrite !omap_app. csimpl.
    by rewrite Hacc. }
  split; [done |]. split; [| split; [| split; [| done]]].
  - apply (overlay_ok_unique (parsedEntries st)).
    + apply load_lines_overlay.
    + rewrite Hent. apply load_lines_overlay.
  - intros Hnb. subst st. unfold load, load_lines. rewrite Hsplit.
    rewrite load_loop_app. simpl.
    rewrite (load_line_malformed _ _ _ _ _ Hbad), Hnb.
    destruct (load_loop_logged_prefix JSON_parse isNew after (S (length before))
      (LoadState
         (parsedEntries (load_loop JSON_parse isNew before 0 load_init))
         (loadedAnnotations (load_loop JSON_parse isNew before 0 load_init))
         (logged (load_loop JSON_parse isNew before 0 load_init)
          ++ [length before]))) as [k Hk].
    rewrite Hk. simpl. rewrite !elem_of_app, list_elem_of_singleton. auto.
  - intros line v Hin Hnb Hparse Hc.
    destruct (proj2 (pushed_completes isNew v) Hc) as [e Hp].
    exists e. split.
    + rewrite Hent. subst st'. unfold load_lines.
      rewrite load_loop_entries. simpl. apply list_elem_of_omap.
      exists line. split; [done |]. unfold accept. by rewrite Hnb, Hparse.
    + exact (pushed_same_fields _ _ _ Hp).
Qed.


End JsonlTheorems.

Lemma malformed_line_dropped_witness :
  let st := load sample_parse true text_mixed in
  let st' := load_lines sample_parse true ([line_a] ++ ["" ; line_b]) in
  parsedEntries st = parsedEntries st'
  ∧ loadedAnnotations st = loadedAnnotations st'
  ∧ (nonblank line_bad = true → length [line_a] ∈ logged st)
  ∧ (∀ line v, line ∈ [line_a] ++ [""; line_b] → nonblank line = true →
       sample_parse line = Some v → completes true v = true →
       ∃ e, e ∈ parsedEntries st ∧ same_fields v e)
  ∧ (∀ a ps, completes true (VObj a ps) = true).
Proof.
  apply (malformed_line_dropped sample_parse true text_mixed
           [line_a] line_bad [""; line_b]); reflexivity.
Defined.

(** The overlay entry of the record on the fourth line sits at index 1. *)
Example load_text_mixed :
  let st := load sample_parse false text_mixed in
  parsedEntries st = [obj_a; obj_b]
  ∧ loadedAnnotations st !! 1 = Some (VObj false [("c", annot_yes)])
  ∧ loadedAnnotations st !! 3 = None
  ∧ logged st = [1].
Proof. vm_compute. done. Qed.

Example roundtrip_text_mixed :
  let st := load sample_parse false text_mixed in
  output_text sample_stringify (parsedEntries st) (loadedAnnotations st)
  = line_a +:+ nl +:+ line_b.
Proof. vm_compute. done. Qed.

(** ** Annotation initialisation *)

Lemma init_step_own (acc : value) (key : string) :
  own_props (init_step acc key)
  = if negb (includes TELEMETRY_KEYS key) && negb (String.eqb key PROTO)
    then assoc_set key default_annotation (own_props acc)
    else own_props acc.
Proof.
  unfold init_step, init_assign, PROTO.
  destruct (includes TELEMETRY_KEYS key); [done |].
  destruct (String.eqb key "__proto__"); simpl; [done |].
  by destruct acc.
Qed.

Lemma init_fold_keeps k keys acc :
  assoc_get k (own_props acc) = Some default_annotation →
  assoc_get k (own_props (foldl init_step acc keys)) = Some default_annotation.
Proof.
  revert acc. induction keys as [|key keys IH]; intros acc Hacc; simpl; [done |].
  apply IH. rewrite init_step_own.
  destruct (negb (includes TELEMETRY_KEYS key) && negb (String.eqb key PROTO));
    [| done].
  destruct (decide (key = k)) as [->|Hne].
  - apply assoc_get_set_eq.
  - by rewrite assoc_get_set_ne.
Qed.

Lemma init_fold_sets k keys acc :
  k ∈ keys → includes TELEMETRY_KEYS k = false → k ≠ PROTO →
  assoc_get k (own_props (foldl init_step acc keys)) = Some default_annotation.
Proof.
  intros Hin Ht Hp. revert acc.
  induction keys as [|key keys IH]; intros acc; [by apply elem_of_nil in Hin |].
  simpl. apply elem_of_cons in Hin as [<-|Hin]; [| by apply IH].
  apply init_fold_keeps. rewrite init_step_own, Ht.
  apply String.eqb_neq in Hp. rewrite Hp. simpl.
  apply assoc_get_set_eq.
Qed.

Lemma initializeAnnotations_tracked v k :
  k ∈ Object_keys v → includes TELEMETRY_KEYS k = false → k ≠ PROTO →
  assoc_get k (own_props (initializeAnnotations v)) = Some default_annotation.
Proof. intros Hin Ht Hp. by apply init_fold_sets. Qed.

Lemma pushed_new_annotation v e :
  pushed true v = Some e →
  if truthy (prop v UA) then e = v
  else prop e UA = initializeAnnotations v.
Proof.
  unfold pushed, prepare. intros H.
  destruct (js_get v UA) as [ua|] eqn:Hg; simpl in H; [| done].
  rewrite <- (js_get_Some _ _ Hg).
  destruct (truthy ua); simpl in H.
  - rewrite Hg in H. by simplify_eq/=.
  - destruct v; simpl in H; try done; simplify_eq/=;
      apply prop_own; simpl; apply assoc_get_set_eq.
Qed.

(** ** The session *)

Section SessionTheorems.

Variable JSON_parse : string -> option value.
Variable JSON_stringify : value -> string.

Lemma mutation_then_pause (s : session) h key field v (gap : nat) :
  outputFileHandle s = Some h → gap < delay →
  elapse JSON_stringify gap (handleAnnotationChange key field v s)
  = let a := annotate (currentIndex s) key field v (annotations s) in
    Session (entries s) a (currentIndex s) (currentFileHandle s) (Some h)
      (dir s) (clock s + gap)
      (Some (clock s + delay, SaveArgs h (entries s) a))
      (inflight s) (issued s) (alerts s).
Proof.
  intros Hh Hgap. unfold handleAnnotationChange, debouncedSave, elapse.
  rewrite Hh. simpl.
  by rewrite (proj2 (Nat.leb_gt _ _)) by lia.
Qed.

Lemma mutation_then_quiet (s : session) h key field v (dt : nat) :
  outputFileHandle s = Some h → (delay ≤ dt)%nat →
  elapse JSON_stringify dt (handleAnnotationChange key field v s)
  = let a := annotate (currentIndex s) key field v (annotations s) in
    let w := Write h (output_text JSON_stringify (entries s) a) in
    Session (entries s) a (currentIndex s) (currentFileHandle s) (Some h)
      (dir s) (clock s + dt) None
      (inflight s ++ [w]) (issued s ++ [(length (inflight s), w)]) (alerts s).
Proof.
  intros Hh Hdt. unfold handleAnnotationChange, debouncedSave, elapse.
  rewrite Hh. simpl.
  by rewrite (proj2 (Nat.leb_le _ _)) by lia.
Qed.

Lemma run_burst_cons (s : session) key field v gap ms :
  run JSON_parse JSON_stringify s (burst ((key, field, v, gap) :: ms))
  = run JSON_parse JSON_stringify
      (elapse JSON_stringify gap (handleAnnotationChange key field v s))
      (burst ms).
Proof. reflexivity. Qed.

Lemma burst_quick (s : session) h
  (quick : list (string * string * value * nat)) (key field : string)
  (v : value) (dt : nat) :
  outputFileHandle s = Some h →
  Forall (fun m => m.2 < delay) quick → (delay ≤ dt)%nat →
  issued (run JSON_parse JSON_stringify s
            (burst (quick ++ [(key, field, v, dt)])))
  = issued s ++
    [(length (inflight s),
      Write h (output_text JSON_stringify (entries s)
                 (apply_mutations (currentIndex s) (annotations s)
                    (quick ++ [(key, field, v, dt)]))))].
Proof.
  intros Hh Hq Hdt. revert s Hh.
  induction Hq as [|[[[k1 f1] v1] g1] quick Hg _ IH]; intros s Hh.
  - simpl. by rewrite (mutation_then_quiet s h) by done.
  - simpl in Hg. rewrite <- app_comm_cons, run_burst_cons.
    rewrite (mutation_then_pause s h) by done. cbv zeta.
    by rewrite IH.
Qed.

Lemma burst_slow (s : session) h
  (slow : list (string * string * value * nat)) :
  outputFileHandle s = Some h →
  Forall (fun m => (delay ≤ m.2)%nat) slow →
  (issued (run JSON_parse JSON_stringify s (burst slow))).*2
  = (issued s).*2 ++
    ((fun a => Write h (output_text JSON_stringify (entries s) a))
       <$> overlays (currentIndex s) (annotations s) slow).
Proof.
  intros Hh Hs. revert s Hh.
  induction Hs as [|[[[k1 f1] v1] g1] slow Hg _ IH]; intros s Hh.
  - simpl. by rewrite app_nil_r.
  - simpl in Hg. rewrite run_burst_cons.
    rewrite (mutation_then_quiet s h) by done. cbv zeta.
    rewrite IH by done. simpl. rewrite fmap_app. simpl.
    by rewrite <- app_assoc.
Qed.

Lemma overlays_length i a ms : length (overlays i a ms) = length ms.
Proof.
  revert a. induction ms as [|[[[k f] v] g] ms IH]; intros a; simpl; [done |].
  by rewrite IH.
Qed.

(** Whenever entries are shown, the session has an output handle. *)
Lemma step_entries_handle (s : session) (e : event) :
  (entries s ≠ [] → is_Some (outputFileHandle s)) →
  let s' := step JSON_parse JSON_stringify s e in
  entries s' ≠ [] → is_Some (outputFileHandle s').
Proof.
  intros Hs. destruct e; simpl.
  - unfold handleSelectFile.
    destruct (dir s !! outputFilename name); simpl; [by eauto |].
    destruct (<[outputFilename name:=""]> (dir s) !! name); simpl; by eauto.
  - unfold handleAnnotationChange, debouncedSave.
    destruct (outputFileHandle s) eqn:E; simpl; [by eauto | by rewrite E].
  - unfold nextEntry. by destruct (Z.ltb _ _).
  - unfold prevEntry. by destruct (Nat.ltb _ _).
  - unfold elapse. destruct (timeoutRef s) as [[deadline args]|]; [| done].
    by destruct (Nat.leb _ _).
  - unfold settle. by destruct (inflight s).
Qed.

Lemma reachable_entries_handle (d : gmap string string) (evs : list event) :
  let s := run JSON_parse JSON_stringify (initial d) evs in
  entries s ≠ [] → is_Some (outputFileHandle s).
Proof.
  unfold run. assert (H0 : entries (initial d) ≠ [] →
                           is_Some (outputFileHandle (initial d))) by done.
  revert H0. generalize (initial d).
  induction evs as [|e evs IH]; intros s Hs; simpl; [done |].
  apply IH. by apply step_entries_handle.
Qed.

(** Opening a file whose annotated sibling exists issues no write. *)
Lemma resume_issues_no_write (s : session) (name content : string) :
  dir s !! outputFilename name = Some content →
  let s' := handleSelectFile JSON_parse JSON_stringify name s in
  issued s' = issued s
  ∧ entries s' = parsedEntries (load JSON_parse false content).
Proof. intros H. unfold handleSelectFile. by rewrite H. Qed.

(** C2 (as the code has it).  There is no in-flight tracking: a mutation on a
    session with an output handle (re)starts the timer, no write is issued
    before the quiet period is over, and when it is over exactly one write is
    issued, carrying the overlay after the mutation, whatever the number of
    writes still in flight; that number is recorded with the write and the new
    write joins the outstanding ones. *)
Theorem mutation_captured_without_guard (s : session) (h key field : string)
  (v : value) (gap dt : nat) :
  outputFileHandle s = Some h → gap < delay → (delay ≤ dt)%nat →
  let a := annotate (currentIndex s) key field v (annotations s) in
  let w := Write h (output_text JSON_stringify (entries s) a) in
  let early :=
    run JSON_parse JSON_stringify s [AnnotationChange key field v; Elapse gap] in
  let s' :=
    run JSON_parse JSON_stringify s [AnnotationChange key field v; Elapse dt] in
  issued early = issued s
  ∧ issued s' = issued s ++ [(length (inflight s), w)]
  ∧ inflight s' = inflight s ++ [w]
  ∧ timeoutRef s' = None.
Proof.
  intros Hh Hgap Hdt a w early s'. subst early s'.
  change (run JSON_parse JSON_stringify s [AnnotationChange key field v; Elapse gap])
    with (elapse JSON_stringify gap (handleAnnotationChange key field v s)).
  change (run JSON_parse JSON_stringify s [AnnotationChange key field v; Elapse dt])
    with (elapse JSON_stringify dt (handleAnnotationChange key field v s)).
  rewrite (mutation_then_pause s h) by done.
  rewrite (mutation_then_quiet s h) by done.
  done.
Qed.

(** C3 (as the code has it).  Opening a source file whose annotated sibling
    does not exist issues exactly one write, at once and without the timer; its
    text is the serialisation of the loaded entries.  In that text a record
    that carried no truthy annotation object has the default annotation for
    each of its fields outside the telemetry keys, a field named [__proto__]
    left aside; a record that already carried one keeps it as it is. *)
Theorem bootstrap_write (s : session) (name text : string) :
  dir s !! outputFilename name = None →
  dir s !! name = Some text →
  let s' := handleSelectFile JSON_parse JSON_stringify name s in
  let records :=
    filter (fun v => completes true v = true)
      (parsed_values JSON_parse (split_lines text)) in
  let outs := output_objects (entries s') (annotations s') in
  issued s'
    = issued s ++
      [(length (inflight s),
        Write (outputFilename name) (join_lines (JSON_stringify <$> outs)))]
  ∧ timeoutRef s' = timeoutRef s
  ∧ outputFileHandle s' = Some (outputFilename name)
  ∧ Forall2
      (fun v o =>
         if truthy (prop v UA) then prop o UA = prop v UA
         else ∀ k, k ∈ Object_keys v → includes TELEMETRY_KEYS k = false →
                k ≠ PROTO →
                assoc_get k (own_props (prop o UA)) = Some default_annotation)
      records outs.
Proof.
  intros Hout Hin s' records outs.
  assert (Hne : outputFilename name ≠ name) by congruence.
  assert (Hs' : s' =
    saveToDisk JSON_stringify (Some (outputFilename name))
      (parsedEntries (load JSON_parse true text))
      (loadedAnnotations (load JSON_parse true text))
      (Session (parsedEntries (load JSON_parse true text))
         (loadedAnnotations (load JSON_parse true text)) 0 (Some name)
         (Some (outputFilename name)) (<[outputFilename name := ""]> (dir s))
         (clock s) (timeoutRef s) (inflight s) (issued s) (alerts s))).
  { subst s'. unfold handleSelectFile. rewrite Hout.
    by rewrite lookup_insert_ne, Hin by done. }
  subst outs. rewrite Hs'. unfold saveToDisk.
  cbn [issued timeoutRef outputFileHandle entries annotations inflight].
  repeat split; try done.
  subst records. unfold load.
  rewrite output_objects_loaded by apply load_lines_overlay.
  unfold load_lines. rewrite load_loop_entries. simpl.
  rewrite accept_pushed. apply Forall2_fmap_r.
  eapply Forall2_impl; [apply Forall2_pushed |].
  intros v e Hp. apply pushed_new_annotation in Hp. unfold compose.
  replace (prop (VObj false (own_props e)) UA) with (prop e UA)
    by (by rewrite !prop_UA_own).
  destruct (truthy (prop v UA)).
  - by subst.
  - intros k Hk Ht Hproto. rewrite Hp. by apply initializeAnnotations_tracked.
Qed.

(** C4.  Coalescing.  On a session with an output handle, a burst of
    mutations in which every pause but the last is shorter than the delay of
    500, and the last pause is at least the delay, adds exactly one write, and
    it carries the overlay after all the mutations.  When every mutation is
    followed by a pause of at least the delay, each one adds its own write,
    carrying the overlay as it was after that mutation. *)
Theorem debounce_coalescing (s : session) (h : string)
  (quick : list (string * string * value * nat)) (key field : string)
  (v : value) (dt : nat) (slow : list (string * string * value * nat)) :
  outputFileHandle s = Some h →
  Forall (fun m => m.2 < delay) quick → (delay ≤ dt)%nat →
  Forall (fun m => (delay ≤ m.2)%nat) slow →
  let all := quick ++ [(key, field, v, dt)] in
  let s1 := run JSON_parse JSON_stringify s (burst all) in
  let s2 := run JSON_parse JSON_stringify s (burst slow) in
  issued s1
    = issued s ++
      [(length (inflight s),
        Write h (output_text JSON_stringify (entries s)
                   (apply_mutations (currentIndex s) (annotations s) all)))]
  ∧ (issued s2).*2
    = (issued s).*2 ++
      ((fun a => Write h (output_text JSON_stringify (entries s) a))
         <$> overlays (currentIndex s) (annotations s) slow)
  ∧ length (issued s2) = length (issued s) + length slow.
Proof.
  intros Hh Hq Hdt Hs all s1 s2. split; [by apply burst_quick |].
  assert (H2 := burst_slow s h slow Hh Hs). split; [exact H2 |].
  apply (f_equal length) in H2.
  rewrite length_app, !length_fmap, overlays_length in H2. exact H2.
Qed.

Lemma own_props_or_empty (x : value) :
  own_props (js_or x (VObj false [])) = own_props x.
Proof.
  unfold js_or. destruct (truthy x) eqn:E; [done |].
  destruct x as [| |b|[q|n]|str|a ps|ps|nm ps]; simpl in *; try done.
  by destruct str.
Qed.

(** X21.  Frame of an annotation update, as the code has it.
    [handleAnnotationChange key field v] leaves the entries and the current
    index as they are; in the overlay, every other record index and every
    other field key of the current record are untouched, the entry of [key] is
    a plain object whose sub-field [field] holds [v], and its other sub-fields
    are the own properties of what the read of the previous entry found, or of
    the default annotation when that was falsy.  When [key] names nothing on
    the prototype chain of the record's annotations, that read is the own
    previous entry: its sub-fields are kept, and the defaults fill in when
    there was none. *)
Theorem annotation_update_frame (s : session) (key field : string) (v : value) :
  let i := currentIndex s in
  let prev := annotations s in
  let s' := handleAnnotationChange key field v s in
  let next := annotations s' in
  let current := js_or (default VUndefined (prev !! i)) (VObj false []) in
  let fieldAnnot := js_or (prop current key) default_annotation in
  entries s' = entries s
  ∧ currentIndex s' = i
  ∧ (∀ j, j ≠ i → next !! j = prev !! j)
  ∧ (∀ k, k ≠ key → overlay_field next i k = overlay_field prev i k)
  ∧ (∃ e, overlay_field next i key = Some e ∧ is_plain_object e)
  ∧ overlay_subfield next i key field = Some v
  ∧ (∀ f, f ≠ field →
       overlay_subfield next i key f = assoc_get f (own_props fieldAnnot))
  ∧ (inherited current key = VUndefined →
     fieldAnnot
     = js_or (default VUndefined (overlay_field prev i key)) default_annotation).
Proof.
  intros i prev s' next current fieldAnnot.
  assert (Hnext : next = annotate i key field v prev).
  { subst next s'. unfold handleAnnotationChange.
    by destruct (outputFileHandle s). }
  split; [subst s'; unfold handleAnnotationChange;
          by destruct (outputFileHandle s) |].
  split; [subst s'; unfold handleAnnotationChange;
          by destruct (outputFileHandle s) |].
  rewrite Hnext. unfold annotate, overlay_subfield, overlay_field, spread.
  fold current. fold fieldAnnot.
  split; [intros j Hj; by rewrite lookup_insert_ne |].
  assert (Hcur : own_props current = own_props (default VUndefined (prev !! i)))
    by apply own_props_or_empty.
  rewrite lookup_insert_eq. unfold default at 1 2 3 4. cbn [from_option id own_props].
  rewrite Hcur.
  split; [intros k Hk; by rewrite assoc_get_set_ne |].
  rewrite assoc_get_set_eq. cbn [from_option id own_props].
  split; [eexists; split; [reflexivity | by eexists] |].
  split; [apply assoc_get_set_eq |].
  split; [intros f Hf; by rewrite assoc_get_set_ne |].
  intros Hinh. subst fieldAnnot. f_equal. unfold prop. rewrite Hcur.
  destruct (assoc_get key (own_props (default VUndefined (prev !! i))));
    [done | exact Hinh].
Qed.

End SessionTheorems.

(** C9, at the failing input.  On a record with a field named [constructor]
    and no annotation yet, setting the correctness of that field to [yes]
    reads the inherited member of that name, which is truthy, in place of the
    missing entry: the stored entry holds the updated sub-field alone, and its
    comment is not filled in with the default. *)
Lemma annotation_update_inherited_key :
  let s' := handleAnnotationChange "constructor" "correctness" (VStr "yes")
              session_constructor in
  overlay_field (annotations session_constructor) 0 "constructor" = None
  ∧ overlay_field (annotations s') 0 "constructor"
    = Some (VObj false [("correctness", VStr "yes")])
  ∧ overlay_subfield (annotations s') 0 "constructor" "comment" = None
  ∧ assoc_get "comment" (own_props default_annotation) = Some (VStr "").
Proof. by vm_compute. Qed.

Lemma mutation_captured_without_guard_witness :
  let s := session_opened in
  let a := annotate (currentIndex s) "a" "correctness" (VStr "yes")
             (annotations s) in
  let w := Write "d_annotated.jsonl"
             (output_text sample_stringify (entries s) a) in
  let early :=
    run sample_parse sample_stringify s
      [AnnotationChange "a" "correctness" (VStr "yes"); Elapse 499] in
  let s' :=
    run sample_parse sample_stringify s
      [AnnotationChange "a" "correctness" (VStr "yes"); Elapse 500] in
  issued early = issued s
  ∧ issued s' = issued s ++ [(length (inflight s), w)]
  ∧ inflight s' = inflight s ++ [w]
  ∧ timeoutRef s' = None.
Proof.
  apply (mutation_captured_without_guard sample_parse sample_stringify
           session_opened "d_annotated.jsonl" "a" "correctness" (VStr "yes")
           499 500);
    [reflexivity | unfold delay; lia | unfold delay; lia].
Defined.

(** C2, counterexample.  A source file is opened and its bootstrap write
    settles; then two mutations, each followed by a full quiet period, with no
    write settling in between: the write of the second mutation is issued
    while the write of the first is outstanding. *)
Lemma overlapping_writes_counterexample :
  let s := run sample_parse sample_stringify (initial folder_a)
             [SelectFile "d.jsonl"; WriteSettles;
              AnnotationChange "a" "correctness" (VStr "yes"); Elapse 500;
              AnnotationChange "a" "comment" (VStr "hm"); Elapse 500] in
  (issued s).*1 = [0; 0; 1] ∧ length (inflight s) = 2 ∧ ¬ overlap_free s.
Proof.
  split; [by vm_compute |]. split; [by vm_compute |].
  unfold overlap_free. intros H.
  assert (Hl : ∀ n, n ∈ (issued (run sample_parse sample_stringify
             (initial folder_a)
             [SelectFile "d.jsonl"; WriteSettles;
              AnnotationChange "a" "correctness" (VStr "yes"); Elapse 500;
              AnnotationChange "a" "comment" (VStr "hm"); Elapse 500])).*1
             → n = 0).
  { intros n [[n' w] [-> Hin]]%list_elem_of_fmap.
    by apply (proj1 (Forall_forall _ _) H) in Hin. }
  specialize (Hl 1). discriminate Hl. vm_compute. right. right. left.
Qed.

Lemma bootstrap_write_witness :
  let s' := handleSelectFile sample_parse sample_stringify "d.jsonl"
              (initial folder_a) in
  let records :=
    filter (fun v => completes true v = true)
      (parsed_values sample_parse (split_lines line_a)) in
  let outs := output_objects (entries s') (annotations s') in
  issued s'
    = [] ++
      [(0, Write (outputFilename "d.jsonl")
             (join_lines (sample_stringify <$> outs)))]
  ∧ timeoutRef s' = None
  ∧ outputFileHandle s' = Some (outputFilename "d.jsonl")
  ∧ Forall2
      (fun v o =>
         if truthy (prop v UA) then prop o UA = prop v UA
         else ∀ k, k ∈ Object_keys v → includes TELEMETRY_KEYS k = false →
                k ≠ PROTO →
                assoc_get k (own_props (prop o UA)) = Some default_annotation)
      records outs.
Proof.
  apply (bootstrap_write sample_parse sample_stringify (initial folder_a)
           "d.jsonl" line_a); reflexivity.
Defined.

(** C3, counterexample.  A source file whose only record already carries
    annotations for a field [c]: the bootstrap write reproduces the line, and
    the tracked field [b] gets no annotation. *)
Lemma bootstrap_counterexample :
  let s' := handleSelectFile sample_parse sample_stringify "d.jsonl"
              (initial folder_b) in
  issued s' = [(0, Write "d_annotated.jsonl" line_b)]
  ∧ entries s' = [obj_b]
  ∧ "b" ∈ Object_keys obj_b
  ∧ includes TELEMETRY_KEYS "b" = false
  ∧ ∃ o, output_objects (entries s') (annotations s') = [o]
         ∧ assoc_get "b" (own_props (prop o UA)) = None
         ∧ assoc_get "c" (own_props (prop o UA)) = Some annot_yes.
Proof.
  split; [by vm_compute |]. split; [by vm_compute |].
  split; [by left |]. split; [done |].
  exists obj_b. split; [by vm_compute |]. done.
Qed.

Lemma debounce_coalescing_witness :
  let quick := [("a", "correctness", VStr "yes", 100);
                ("a", "comment", VStr "hm", 499)] in
  let all := quick ++ [("a", "correctness", VStr "no", 500)] in
  let slow := [("a", "correctness", VStr "yes", 500);
               ("a", "comment", VStr "hm", 700)] in
  let s1 := run sample_parse sample_stringify session_a (burst all) in
  let s2 := run sample_parse sample_stringify session_a (burst slow) in
  issued s1
    = issued session_a ++
      [(length (inflight session_a),
        Write "d_annotated.jsonl"
          (output_text sample_stringify (entries session_a)
             (apply_mutations (currentIndex session_a)
                (annotations session_a) all)))]
  ∧ (issued s2).*2
    = (issued session_a).*2 ++
      ((fun a => Write "d_annotated.jsonl"
                   (output_text sample_stringify (entries session_a) a))
         <$> overlays (currentIndex session_a) (annotations session_a) slow)
  ∧ length (issued s2) = length (issued session_a) + length slow.
Proof.
  apply (debounce_coalescing sample_parse sample_stringify session_a
           "d_annotated.jsonl"
           [("a", "correctness", VStr "yes", 100);
            ("a", "comment", VStr "hm", 499)]
           "a" "correctness" (VStr "no") 500
           [("a", "correctness", VStr "yes", 500);
            ("a", "comment", VStr "hm", 700)]);
    [reflexivity
    | repeat (constructor; [simpl; unfold delay; lia |]); constructor
    | unfold delay; lia
    | repeat (constructor; [simpl; unfold delay; lia |]); constructor].
Defined.

(** The text of the single write of a quick burst on the sample session. *)
Example coalesced_write_text :
  let s := run sample_parse sample_stringify session_a
             (burst [("a", "correctness", VStr "yes", 100);
                     ("a", "comment", VStr "hm", 499);
                     ("a", "correctness", VStr "no", 500)]) in
  drop 1 (issued s).*2
  = [Write "d_annotated.jsonl"
       ("{" +:+ quoted "a" +:+ ":" +:+ quoted "x" +:+ ","
        +:+ quoted "user_annotations" +:+ ":{" +:+ quoted "a" +:+ ":{"
        +:+ quoted "correctness" +:+ ":" +:+ quoted "no" +:+ ","
        +:+ quoted "comment" +:+ ":" +:+ quoted "hm" +:+ "}}}")].
Proof. by vm_compute. Qed.

(** ** The grid *)

Module CsvFacts.
Import Csv.

Lemma at_index_indexOf hs h : h ∈ hs → at_index hs (indexOf hs h) = Some h.
Proof.
  unfold at_index. induction hs as [|x r IH]; [by intros ?%elem_of_nil |].
  intros Hin. simpl. destruct (String.eqb_spec x h) as [->|Hne]; [done |].
  apply elem_of_cons in Hin as [?|Hin]; [congruence |].
  specialize (IH Hin).
  destruct (Z.ltb_spec (indexOf r h) 0) as [Hneg|Hpos]; [done |].
  destruct (Z.ltb_spec (indexOf r h + 1) 0); [lia |].
  replace (Z.to_nat (indexOf r h + 1)) with (S (Z.to_nat (indexOf r h))) by lia.
  done.
Qed.

Lemma indexOf_zero hs h : indexOf hs h = 0%Z → at_index hs 0 = Some h.
Proof.
  destruct hs as [|x r]; simpl; [done |].
  destruct (String.eqb_spec x h) as [->|Hne]; [done |].
  destruct (Z.ltb_spec (indexOf r h) 0); [done |]. lia.
Qed.

Lemma at_index_in_range {A} (xs : list A) (i : Z) :
  (0 ≤ i < Z.of_nat (length xs))%Z → is_Some (at_index xs i).
Proof.
  intros Hi. unfold at_index.
  destruct (Z.ltb_spec i 0); [lia |]. apply lookup_lt_is_Some. lia.
Qed.

Lemma set_cell_lookup (r : gmap string string) (header value h : string) :
  set_cell r header value !! h
  = if decide (h = header ∧ (header = PROTO → is_Some (r !! header)))
    then Some value else r !! h.
Proof.
  unfold set_cell, PROTO.
  destruct (String.eqb_spec header "__proto__") as [Hp|Hp]; cbn [andb].
  - destruct (r !! header) as [old|] eqn:Hold.
    + rewrite bool_decide_eq_false_2 by done.
      destruct (decide (h = header)) as [->|Hne].
      * rewrite lookup_insert_eq. rewrite decide_True; [done |].
        split; [done |]. intros _. by eexists.
      * rewrite lookup_insert_ne by done.
        rewrite decide_False; [done |]. by intros [? _].
    + rewrite bool_decide_eq_true_2 by done.
      rewrite decide_False; [done |]. intros [_ H].
      destruct (H Hp) as [? ?]. done.
  - destruct (decide (h = header)) as [->|Hne].
    + rewrite lookup_insert_eq. by rewrite decide_True.
    + rewrite lookup_insert_ne by done.
      rewrite decide_False; [done |]. by intros [? _].
Qed.



(** C5 (as the code has it).  Deleting a column through the context menu, once
    confirmed, removes the column from [headers] and closes the menu, and
    leaves every row as it is: the data of the remaining columns is unchanged,
    and so are the key and the value of the deleted column, which stay in
    every row that had them.  Hence the rows' keys remain among the headers
    exactly when no row had a value for the deleted column. *)
Theorem delete_column_keeps_rows (g : grid) (header : string) (index : nat) :
  contextMenu g = Some (header, index) →
  let g' := handleDeleteColumn true g in
  headers g' = filter (fun h => h ≠ header) (headers g)
  ∧ (header ∉ headers g')
  ∧ data g' = data g
  ∧ contextMenu g' = None
  ∧ (row_invariant g' ↔
     row_invariant g ∧ Forall (fun r => r !! header = None) (data g)).
Proof.
  intros Hm g'. subst g'. unfold handleDeleteColumn. rewrite Hm. simpl.
  split; [done |]. split.
  { rewrite list_elem_of_filter. by intros [? _]. }
  split; [done |]. split; [done |].
  unfold row_invariant. simpl. rewrite !Forall_forall.
  split.
  - intros H. split.
    + intros r Hr k Hk. specialize (H r Hr k Hk).
      rewrite elem_of_list_to_set, list_elem_of_filter in H.
      rewrite elem_of_list_to_set. by destruct H.
    + intros r Hr. apply not_elem_of_dom. intros Hd.
      specialize (H r Hr header Hd).
      rewrite elem_of_list_to_set, list_elem_of_filter in H. by destruct H.
  - intros [Hinv H] r Hr k Hk.
    rewrite elem_of_list_to_set, list_elem_of_filter. split.
    + intros ->. specialize (H r Hr). apply not_elem_of_dom in H. done.
    + specialize (Hinv r Hr k Hk). by rewrite elem_of_list_to_set in Hinv.
Qed.


(** C8.  In Navigate mode, ArrowDown pressed on a cell of the last row and
    ArrowLeft pressed on a cell of the first column leave the selection on
    that cell: the row, respectively the column, is clamped, and nothing else
    changes. *)
Theorem navigation_clamped (g : grid) (rowIndex : Z) (header first x : string) :
  isEditing g = false →
  header ∈ headers g →
  indexOf (headers g) first = 0%Z →
  let last := (Z.of_nat (length (data g)) - 1)%Z in
  handleKeyDown ArrowDown x last header g
  = Some (setSelectedCell (Some (Cell last (Some header))) g)
  ∧ handleKeyDown ArrowLeft x rowIndex first g
    = Some (setSelectedCell (Some (Cell rowIndex (Some first))) g).
Proof.
  intros Hnav Hin H0 last. unfold handleKeyDown. rewrite Hnav. split.
  - rewrite at_index_indexOf by done. subst last.
    by rewrite Z.min_l by lia.
  - rewrite H0. change (Z.max 0 (0 - 1)) with 0%Z.
    by rewrite (indexOf_zero _ _ H0).
Qed.

Lemma grid_ab_invariant : row_invariant grid_ab.
Proof.
  unfold row_invariant, grid_ab. simpl. constructor; [| constructor].
  rewrite dom_insert_L, dom_singleton_L. set_solver.
Qed.

Lemma delete_column_keeps_rows_witness :
  let g' := handleDeleteColumn true grid_ab in
  headers g' = filter (fun h => h ≠ "A") (headers grid_ab)
  ∧ ("A" ∉ headers g')
  ∧ data g' = data grid_ab
  ∧ contextMenu g' = None
  ∧ (row_invariant g' ↔
     row_invariant grid_ab ∧ Forall (fun r => r !! "A" = None) (data grid_ab)).
Proof. apply (delete_column_keeps_rows grid_ab "A" 0). reflexivity. Defined.

(** C5, counterexample.  Deleting column A of the sample table: the row still
    has its key A, which is no longer a header. *)
Lemma delete_column_counterexample :
  let g' := handleDeleteColumn true grid_ab in
  row_invariant grid_ab
  ∧ headers g' = ["B"]
  ∧ cell_value g' 0 "A" = Some "1"
  ∧ ¬ row_invariant g'.
Proof.
  split; [apply grid_ab_invariant |]. split; [by vm_compute |].
  split; [by vm_compute |].
  unfold row_invariant. intros H. apply Forall_inv in H.
  assert (HA : "A" ∈ dom ({[ "A" := "1"; "B" := "2" ]} : gmap string string)).
  { apply elem_of_dom. by eexists. }
  apply H in HA. vm_compute in HA. discriminate HA.
Qed.



Lemma navigation_clamped_witness :
  let g := setIsEditing false grid_ab in
  handleKeyDown ArrowDown "" 0 "B" g
  = Some (setSelectedCell (Some (Cell 0 (Some "B"))) g)
  ∧ handleKeyDown ArrowLeft "" 0 "A" g
    = Some (setSelectedCell (Some (Cell 0 (Some "A"))) g).
Proof.
  apply (navigation_clamped (setIsEditing false grid_ab) 0 "B" "A" "");
    [reflexivity | right; left | reflexivity].
Defined.

(** Escape keeps the old value, Enter stores the typed one. *)
Example escape_then_read :
  (handleKeyDown Escape "X" 0 "A" grid_ab ≫= fun g => cell_value g 0 "A")
  = Some "1".
Proof. by vm_compute. Qed.

Example enter_then_read :
  (handleKeyDown Enter "X" 0 "A" grid_ab ≫= fun g => cell_value g 0 "A")
  = Some "X".
Proof. by vm_compute. Qed.

End CsvFacts.

(** ** More on annotations *)

Lemma assoc_set_set {A} (k : string) (x1 x2 : A) (ps : list (string * A)) :
  assoc_set k x2 (assoc_set k x1 ps) = assoc_set k x2 ps.
Proof.
  induction ps as [|[k' y] r IH]; simpl.
  - by rewrite String.eqb_refl.
  - destruct (String.eqb k k') eqn:E; simpl; rewrite E; [done |].
    by rewrite IH.
Qed.

Lemma init_fold_none k keys acc :
  assoc_get k (own_props acc) = None →
  ¬ (k ∈ keys ∧ includes TELEMETRY_KEYS k = false ∧ k ≠ PROTO) →
  assoc_get k (own_props (foldl init_step acc keys)) = None.
Proof.
  revert acc. induction keys as [|key keys IH]; intros acc Hacc Hn; simpl;
    [done |].
  apply IH.
  - rewrite init_step_own.
    destruct (includes TELEMETRY_KEYS key) eqn:Ht; simpl; [done |].
    destruct (String.eqb key PROTO) eqn:Hp; simpl; [done |].
    rewrite assoc_get_set_ne; [done |].
    intros ->. apply Hn. split; [left | split; [done |]].
    by apply String.eqb_neq.
  - intros (Hin & Ht & Hp). apply Hn. split; [by right | done].
Qed.

Lemma init_fold_shape keys (b : bool) ps :
  let acc := if b then VObjOnDefault ps else VObj false ps in
  foldl init_step acc keys
  = (if b || bool_decide (PROTO ∈ keys) then VObjOnDefault else VObj false)
      (own_props (foldl init_step acc keys)).
Proof.
  revert b ps. induction keys as [|key keys IH]; intros b ps acc.
  - subst acc. rewrite bool_decide_eq_false_2 by apply not_elem_of_nil.
    by destruct b.
  - cbn [foldl].
    destruct (decide (key = PROTO)) as [->|Hne].
    + rewrite (bool_decide_eq_true_2 (PROTO ∈ PROTO :: keys)) by left.
      rewrite orb_true_r.
      replace (init_step acc PROTO) with (VObjOnDefault ps)
        by (subst acc; by destruct b).
      apply (IH true ps).
    + assert (Hdec : bool_decide (PROTO ∈ key :: keys)
                     = bool_decide (PROTO ∈ keys)).
      { apply bool_decide_ext. rewrite elem_of_cons.
        split; [intros [E|Hin]; [by subst | done] | by right]. }
      rewrite Hdec.
      assert (Hstep : init_step acc key
                      = if b then VObjOnDefault (own_props (init_step acc key))
                        else VObj false (own_props (init_step acc key))).
      { subst acc. unfold init_step, init_assign.
        apply String.eqb_neq in Hne. unfold PROTO in Hne. rewrite Hne.
        destruct (includes TELEMETRY_KEYS key); by destruct b. }
      rewrite Hstep. apply (IH b).
Qed.

(** X3.  [initializeAnnotations] gives the default annotation, as an own
    field, to exactly the keys of the object that are neither telemetry keys
    nor [__proto__], and no own field to any other key; a key [__proto__]
    never becomes an own field: assigning it makes the default annotation the
    prototype of the result, which happens exactly when the object has such a
    key. *)
Theorem initializeAnnotations_exact (v : value) (k : string) :
  assoc_get k (own_props (initializeAnnotations v))
  = (if decide (k ∈ Object_keys v ∧ includes TELEMETRY_KEYS k = false
                ∧ k ≠ PROTO)
     then Some default_annotation else None)
  ∧ initializeAnnotations v
    = (if bool_decide (PROTO ∈ Object_keys v) then VObjOnDefault
       else VObj false) (own_props (initializeAnnotations v)).
Proof.
  split.
  - destruct (decide _) as [(Hin & Ht & Hp)|Hn].
    + by apply initializeAnnotations_tracked.
    + by apply init_fold_none.
  - apply (init_fold_shape (Object_keys v) false []).
Qed.

(** X4.  Last write wins: setting the same sub-field of the same entry twice
    gives the overlay of the second update alone; in particular repeating an
    update changes nothing. *)
Theorem annotate_last_write_wins (i : nat) (key field : string)
  (v1 v2 : value) (a : gmap nat value) :
  annotate i key field v2 (annotate i key field v1 a)
  = annotate i key field v2 a.
Proof.
  unfold annotate. rewrite lookup_insert_eq, insert_insert_eq. unfold spread.
  generalize (own_props (js_or (default VUndefined (a !! i)) (VObj false []))).
  generalize (own_props
                (js_or (prop (js_or (default VUndefined (a !! i))
                                (VObj false [])) key)
                   default_annotation)).
  intros fa ps. f_equal. simpl. unfold prop. simpl.
  rewrite assoc_get_set_eq. simpl. by rewrite !assoc_set_set.
Qed.

Lemma output_objects_lookup es an i :
  output_objects es an !! i = merge_entry an i <$> es !! i.
Proof. unfold output_objects. apply list_lookup_imap. Qed.

Lemma output_objects_length es an : length (output_objects es an) = length es.
Proof. unfold output_objects. apply length_imap. Qed.

Lemma merge_entry_plain an i e : is_plain_object (merge_entry an i e).
Proof.
  unfold merge_entry. destruct (an !! i) as [x|]; [| by eexists].
  destruct (truthy x); by eexists.
Qed.

(** X5.  What is annotated is what gets written: after an update of
    sub-field [field] of key [key] on entry [i], the object emitted for entry
    [i] has the fields of the entry, the annotation field apart, its
    annotation object holds [v] at [key].[field], and the objects emitted for
    the other entries are the same as before. *)
Theorem annotation_reaches_output (es : list value) (an : gmap nat value)
  (i : nat) (e : value) (key field : string) (v : value) :
  es !! i = Some e →
  let an' := annotate i key field v an in
  (∃ o, output_objects es an' !! i = Some o
        ∧ is_plain_object o
        ∧ same_fields e o
        ∧ assoc_get field (own_props (prop (prop o UA) key)) = Some v)
  ∧ (∀ j, j ≠ i → output_objects es an' !! j = output_objects es an !! j)
  ∧ length (output_objects es an') = length es.
Proof.
  intros He an'. split; [| split].
  - eexists. rewrite output_objects_lookup, He. split; [reflexivity |].
    split; [apply merge_entry_plain |].
    unfold merge_entry. subst an'. unfold annotate.
    rewrite lookup_insert_eq. unfold spread.
    generalize (own_props (js_or (default VUndefined (an !! i)) (VObj false []))).
    generalize (own_props
                  (js_or (prop (js_or (default VUndefined (an !! i))
                                  (VObj false [])) key)
                     default_annotation)).
    intros fa ps. simpl. split.
    + intros k Hk. simpl. by rewrite assoc_get_set_ne by done.
    + unfold prop. simpl. rewrite assoc_get_set_eq. simpl.
      rewrite assoc_get_set_eq. simpl. apply assoc_get_set_eq.
  - intros j Hj. rewrite !output_objects_lookup.
    destruct (es !! j) as [x|]; [| done]. simpl. f_equal.
    unfold merge_entry. subst an'. unfold annotate.
    by rewrite lookup_insert_ne by done.
  - apply output_objects_length.
Qed.

Lemma annotation_reaches_output_witness :
  let an' := annotate 1 "b" "comment" (VStr "hm") ∅ in
  (∃ o, output_objects [obj_a; obj_b] an' !! 1 = Some o
        ∧ is_plain_object o
        ∧ same_fields obj_b o
        ∧ assoc_get "comment" (own_props (prop (prop o UA) "b"))
          = Some (VStr "hm"))
  ∧ (∀ j, j ≠ 1 →
       output_objects [obj_a; obj_b] an' !! j
       = output_objects [obj_a; obj_b] ∅ !! j)
  ∧ length (output_objects [obj_a; obj_b] an') = length [obj_a; obj_b].
Proof.
  apply (annotation_reaches_output [obj_a; obj_b] ∅ 1 obj_b "b" "comment"
           (VStr "hm")).
  reflexivity.
Defined.

(** ** Saving and opening again *)

Lemma split_lines_single x : single_line x = true → split_lines x = [x].
Proof.
  unfold single_line. induction x as [|c r IH]; simpl; [done |].
  intros [Hc Hr]%andb_prop. apply negb_true_iff in Hc. rewrite Hc.
  by rewrite IH.
Qed.

Lemma split_lines_first x rest :
  single_line x = true →
  split_lines (x +:+ nl +:+ rest) = x :: split_lines rest.
Proof.
  unfold single_line. induction x as [|c r IH]; simpl.
  - by intros _.
  - intros [Hc Hr]%andb_prop. apply negb_true_iff in Hc. rewrite Hc.
    by rewrite IH.
Qed.

Lemma split_join ls :
  ls ≠ [] → Forall (fun l => single_line l = true) ls →
  split_lines (join_lines ls) = ls.
Proof.
  intros Hne Hall. induction Hall as [|x r Hx Hr IH]; [done |].
  destruct r as [|y r].
  - simpl. by apply split_lines_single.
  - change (join_lines (x :: y :: r)) with (x +:+ nl +:+ join_lines (y :: r)).
    rewrite split_lines_first by done. by rewrite IH.
Qed.

Section Reload.

Variable JSON_parse : string -> option value.
Variable JSON_stringify : value -> string.

Lemma load_loop_accepted outs idx st :
  Forall (fun o => is_plain_object o
                   ∧ JSON_parse (JSON_stringify o) = Some o
                   ∧ nonblank (JSON_stringify o) = true) outs →
  let st' := load_loop JSON_parse false (JSON_stringify <$> outs) idx st in
  parsedEntries st' = parsedEntries st ++ outs ∧ logged st' = logged st.
Proof.
  intros Hall. revert idx st.
  induction Hall as [|o outs (Hpl & Hp & Hnb) _ IH]; intros idx st.
  - simpl. by rewrite app_nil_r.
  - destruct Hpl as [ps ->]. rewrite fmap_cons. cbn [load_loop].
    destruct (IH (S idx)
                (load_line JSON_parse false st idx (JSON_stringify (VObj false ps))))
      as [He Hl].
    rewrite He, Hl. unfold load_line, try_line. rewrite Hnb, Hp. simpl.
    by rewrite <- app_assoc.
Qed.

(** X6.  Saving and opening again.  When [JSON.parse] reads back each emitted
    line, and each emitted line is non-blank and free of line breaks, loading
    the text written by [saveToDisk] (as an existing annotated file) gives
    exactly the emitted objects as entries, logs no error, and saving the
    loaded session again gives the same text. *)
Theorem save_then_load (es : list value) (an : gmap nat value) :
  Forall (fun o => JSON_parse (JSON_stringify o) = Some o
                   ∧ nonblank (JSON_stringify o) = true
                   ∧ single_line (JSON_stringify o) = true)
         (output_objects es an) →
  let text := output_text JSON_stringify es an in
  let st := load JSON_parse false text in
  parsedEntries st = output_objects es an
  ∧ logged st = []
  ∧ output_text JSON_stringify (parsedEntries st) (loadedAnnotations st) = text.
Proof.
  intros Hall text st.
  assert (Hplain : Forall is_plain_object (output_objects es an)).
  { apply Forall_lookup. intros i o Ho. rewrite output_objects_lookup in Ho.
    destruct (es !! i); simplify_eq/=. apply merge_entry_plain. }
  assert (Hst : parsedEntries st = output_objects es an ∧ logged st = []).
  { subst st text. unfold output_text, load, load_lines.
    destruct (output_objects es an) as [|o outs] eqn:Houts; [done |].
    rewrite split_join.
    - apply (load_loop_accepted (o :: outs) 0 load_init).
      apply Forall_forall. intros x Hx.
      pose proof (proj1 (Forall_forall _ _) Hall x Hx) as (? & ? & _).
      pose proof (proj1 (Forall_forall _ _) Hplain x Hx). done.
    - done.
    - apply Forall_fmap. eapply Forall_impl; [exact Hall |].
      by intros x (_ & _ & ?). }
  destruct Hst as [He Hl]. split; [done |]. split; [done |].
  subst text. unfold output_text. f_equal. f_equal.
  rewrite output_objects_loaded by apply load_lines_overlay.
  fold st. rewrite He. rewrite <- (list_fmap_id (output_objects es an)) at 2.
  apply Forall_fmap_ext. eapply Forall_impl; [exact Hplain |].
  by intros x [ps ->].
Qed.

End Reload.

Lemma save_then_load_witness :
  let text := output_text sample_stringify [obj_a; obj_b] ∅ in
  let st := load sample_parse false text in
  parsedEntries st = output_objects [obj_a; obj_b] ∅
  ∧ logged st = []
  ∧ output_text sample_stringify (parsedEntries st) (loadedAnnotations st)
    = text.
Proof.
  apply (save_then_load sample_parse sample_stringify [obj_a; obj_b] ∅).
  repeat constructor.
Defined.

(** ** More on the session *)

Section MoreSession.

Variable JSON_parse : string -> option value.
Variable JSON_stringify : value -> string.

Lemma step_index_in_range (s : session) (e : event) :
  (currentIndex s ≤ length (entries s) - 1)%nat →
  let s' := step JSON_parse JSON_stringify s e in
  (currentIndex s' ≤ length (entries s') - 1)%nat.
Proof.
  intros Hs. destruct e; simpl.
  - unfold handleSelectFile.
    destruct (dir s !! outputFilename name); simpl; [lia |].
    destruct (<[outputFilename name:=""]> (dir s) !! name); simpl; lia.
  - unfold handleAnnotationChange, debouncedSave.
    by destruct (outputFileHandle s).
  - unfold nextEntry. destruct (Z.ltb_spec (Z.of_nat (currentIndex s))
                                  (Z.of_nat (length (entries s)) - 1));
      simpl; lia.
  - unfold prevEntry. destruct (Nat.ltb_spec 0 (currentIndex s)); simpl; lia.
  - unfold elapse. destruct (timeoutRef s) as [[deadline args]|]; [| done].
    by destruct (Nat.leb _ _).
  - unfold settle. by destruct (inflight s).
Qed.

Lemma handleSelectFile_parts (s : session) (name : string) :
  handleSelectFile JSON_parse JSON_stringify name s
  = let s1 := handleSelectFile_reset name s in
    let read := handleSelectFile_reads name (dir s1) in
    handleSelectFile_finish JSON_parse JSON_stringify name read.2
      (with_dir read.1 s1).
Proof.
  unfold handleSelectFile, handleSelectFile_finish, handleSelectFile_reads,
    handleSelectFile_reset, with_dir.
  cbn [dir entries annotations currentIndex currentFileHandle outputFileHandle
       clock timeoutRef inflight issued alerts].
  destruct (dir s !! outputFilename name); [done |].
  cbn [fst snd].
  by destruct (<[outputFilename name:=""]> (dir s) !! name).
Qed.

(** X1.  The current index stays in range, overlapping loads apart.  When
    the current index is 0 with no entries, or else the index of an entry, it
    is so again after every handler that runs to its end (Next, Prev, an
    annotation change, a timer, a write that settles, a load that nothing
    interrupts), after the start of a load and after its reads, and after the
    last part of a load that finds the index at 0, whatever its reads found.
    A load that nothing interrupts is its start, its reads and its last part
    run with what the reads found. *)
Theorem index_in_range_kept (s : session) (a : action) :
  (currentIndex s ≤ length (entries s) - 1)%nat →
  (∀ name found, a = LoadFinishes name found → currentIndex s = 0) →
  let s' := act JSON_parse JSON_stringify s a in
  (currentIndex s' ≤ length (entries s') - 1)%nat
  ∧ ∀ name, a = Handler (SelectFile name) →
      s' = foldl (act JSON_parse JSON_stringify) s
             [LoadStarts name; LoadReads name;
              LoadFinishes name (handleSelectFile_reads name (dir s)).2].
Proof.
  intros Hs H0 s'. subst s'. split.
  - destruct a as [e|name|name|name found]; cbn [act].
    + by apply step_index_in_range.
    + simpl. lia.
    + done.
    + pose proof (H0 name found eq_refl) as Hidx.
      unfold handleSelectFile_finish. rewrite Hidx.
      destruct found as [[[|] fileContent]|]; simpl; lia.
  - intros name ->. cbn [foldl act step]. apply handleSelectFile_parts.
Qed.

(** X2.  Prev undoes Next: from an entry that is not the last one, Next moves
    to the following entry and Prev then restores the session as it was. *)
Theorem prev_undoes_next (s : session) :
  currentIndex s + 1 < length (entries s) →
  currentIndex (nextEntry s) = currentIndex s + 1
  ∧ prevEntry (nextEntry s) = s.
Proof.
  intros H. unfold nextEntry.
  destruct (Z.ltb_spec (Z.of_nat (currentIndex s))
              (Z.of_nat (length (entries s)) - 1)); [| lia].
  split; [done |]. unfold prevEntry. simpl.
  destruct (Nat.ltb_spec 0 (currentIndex s + 1)); [| lia].
  destruct s. simpl. f_equal. lia.
Qed.

Lemma handleSelectFile_timer (s : session) (name : string) :
  let s' := handleSelectFile JSON_parse JSON_stringify name s in
  timeoutRef s' = timeoutRef s ∧ clock s' = clock s.
Proof.
  unfold handleSelectFile.
  destruct (dir s !! outputFilename name); simpl; [done |].
  by destruct (<[outputFilename name:=""]> (dir s) !! name).
Qed.

(** X7.  Opening another file does not cancel a pending save: when the timer
    of the earlier session comes due, the write goes to the handle and carries
    the entries and overlay captured when it was scheduled, not those of the
    file opened since. *)
Theorem pending_save_survives_file_switch (s : session) (name : string)
  (deadline : nat) (args : save_args) (dt : nat) :
  timeoutRef s = Some (deadline, args) →
  (deadline ≤ clock s + dt)%nat →
  let s1 := handleSelectFile JSON_parse JSON_stringify name s in
  let s' := elapse JSON_stringify dt s1 in
  issued s'
  = issued s1 ++
    [(length (inflight s1),
      Write (sa_handle args)
        (output_text JSON_stringify (sa_entries args) (sa_annotations args)))]
  ∧ entries s' = entries s1
  ∧ outputFileHandle s' = outputFileHandle s1.
Proof.
  intros Ht Hd s1 s'. subst s'.
  destruct (handleSelectFile_timer s name) as [Htimer Hclock].
  fold s1 in Htimer, Hclock. unfold elapse.
  rewrite Htimer, Ht, Hclock.
  by rewrite (proj2 (Nat.leb_le _ _)) by lia.
Qed.

(** X8.  Coalescing across entries: a mutation on one entry, a move to the
    next entry and a mutation there, all within one quiet period, lead to a
    single write once the quiet period is over, and it carries both
    annotations. *)
Theorem coalescing_across_entries (s : session) (h : string)
  (k1 f1 : string) (v1 : value) (g1 g2 : nat)
  (k2 f2 : string) (v2 : value) (dt : nat) :
  outputFileHandle s = Some h →
  currentIndex s + 1 < length (entries s) →
  g1 + g2 < delay → (delay ≤ dt)%nat →
  let i := currentIndex s in
  let s' :=
    run JSON_parse JSON_stringify s
      [AnnotationChange k1 f1 v1; Elapse g1; NextEntry; Elapse g2;
       AnnotationChange k2 f2 v2; Elapse dt] in
  issued s'
  = issued s ++
    [(length (inflight s),
      Write h (output_text JSON_stringify (entries s)
                 (annotate (i + 1) k2 f2 v2
                    (annotate i k1 f1 v1 (annotations s)))))].
Proof.
  intros Hh Hi Hg Hdt i s'. subst s' i.
  change (run JSON_parse JSON_stringify s
            [AnnotationChange k1 f1 v1; Elapse g1; NextEntry; Elapse g2;
             AnnotationChange k2 f2 v2; Elapse dt])
    with (elapse JSON_stringify dt
            (handleAnnotationChange k2 f2 v2
               (elapse JSON_stringify g2
                  (nextEntry
                     (elapse JSON_stringify g1
                        (handleAnnotationChange k1 f1 v1 s)))))).
  rewrite (mutation_then_pause JSON_stringify s h) by (done || lia).
  cbv zeta. unfold nextEntry at 1. cbn [currentIndex entries].
  destruct (Z.ltb_spec (Z.of_nat (currentIndex s))
              (Z.of_nat (length (entries s)) - 1)); [| lia].
  unfold elapse at 2.
  cbn [timeoutRef clock entries annotations currentIndex currentFileHandle
       outputFileHandle dir inflight issued alerts].
  rewrite (proj2 (Nat.leb_gt _ _)) by lia.
  by rewrite (mutation_then_quiet JSON_stringify _ h) by done.
Qed.

End MoreSession.

Lemma index_in_range_kept_witness :
  let s := handleSelectFile_reset "d.jsonl" (initial folder_two) in
  let a := LoadFinishes "d.jsonl" (Some (true, line_a +:+ nl +:+ line_b)) in
  let s' := act sample_parse sample_stringify s a in
  (currentIndex s' ≤ length (entries s') - 1)%nat
  ∧ ∀ name, a = Handler (SelectFile name) →
      s' = foldl (act sample_parse sample_stringify) s
             [LoadStarts name; LoadReads name;
              LoadFinishes name (handleSelectFile_reads name (dir s)).2].
Proof.
  apply (index_in_range_kept sample_parse sample_stringify
           (handleSelectFile_reset "d.jsonl" (initial folder_two))
           (LoadFinishes "d.jsonl" (Some (true, line_a +:+ nl +:+ line_b)))).
  - simpl. lia.
  - intros name found _. reflexivity.
Defined.

(** X22.  Overlapping loads can leave the index past the entries.  In a
    folder with a file of two records and a file of one, the second file is
    selected while the first is still loading; the first load finishes, Next
    moves to its second record, and then the second load finishes: the entries
    are the single record of the second file and the current index is still 1,
    which is the index of no entry.  What each load is finished with is what
    its reads find in that folder. *)
Lemma overlapping_loads_leave_range :
  let s := foldl (act sample_parse sample_stringify) (initial folder_two)
             overlapping_loads in
  length (entries s) = 1
  ∧ currentIndex s = 1
  ∧ entries s !! currentIndex s = None
  ∧ currentFileHandle s = Some "e.jsonl"
  ∧ (handleSelectFile_reads "d.jsonl" folder_two).2
    = Some (true, line_a +:+ nl +:+ line_b)
  ∧ (handleSelectFile_reads "e.jsonl" folder_two).2 = Some (true, line_a).
Proof. by vm_compute. Qed.

Lemma prev_undoes_next_witness :
  let s := Session [obj_a; obj_b] ∅ 0 None None ∅ 0 None [] [] 0 in
  currentIndex (nextEntry s) = currentIndex s + 1
  ∧ prevEntry (nextEntry s) = s.
Proof.
  apply (prev_undoes_next
           (Session [obj_a; obj_b] ∅ 0 None None ∅ 0 None [] [] 0)).
  simpl. lia.
Defined.

Lemma pending_save_survives_file_switch_witness :
  let s := handleAnnotationChange "a" "comment" (VStr "hm") session_a in
  let args := SaveArgs "d_annotated.jsonl" (entries session_a) (annotations s) in
  let s1 := handleSelectFile sample_parse sample_stringify "e.jsonl" s in
  let s' := elapse sample_stringify 500 s1 in
  issued s'
  = issued s1 ++
    [(length (inflight s1),
      Write (sa_handle args)
        (output_text sample_stringify (sa_entries args) (sa_annotations args)))]
  ∧ entries s' = entries s1
  ∧ outputFileHandle s' = outputFileHandle s1.
Proof.
  apply (pending_save_survives_file_switch sample_parse sample_stringify
           (handleAnnotationChange "a" "comment" (VStr "hm") session_a)
           "e.jsonl" 500
           (SaveArgs "d_annotated.jsonl" (entries session_a)
              (annotations
                 (handleAnnotationChange "a" "comment" (VStr "hm") session_a)))
           500);
    [reflexivity | vm_compute; lia].
Defined.

Lemma coalescing_across_entries_witness :
  let s := Session [obj_a; obj_b] ∅ 0 (Some "d.jsonl")
             (Some "d_annotated.jsonl") ∅ 0 None [] [] 0 in
  let s' :=
    run sample_parse sample_stringify s
      [AnnotationChange "a" "correctness" (VStr "yes"); Elapse 200; NextEntry;
       Elapse 299; AnnotationChange "b" "correctness" (VStr "no");
       Elapse 500] in
  issued s'
  = issued s ++
    [(length (inflight s),
      Write "d_annotated.jsonl"
        (output_text sample_stringify (entries s)
           (annotate (currentIndex s + 1) "b" "correctness" (VStr "no")
              (annotate (currentIndex s) "a" "correctness" (VStr "yes")
                 (annotations s)))))].
Proof.
  apply (coalescing_across_entries sample_parse sample_stringify
           (Session [obj_a; obj_b] ∅ 0 (Some "d.jsonl")
              (Some "d_annotated.jsonl") ∅ 0 None [] [] 0)
           "d_annotated.jsonl" "a" "correctness" (VStr "yes") 200 299
           "b" "correctness" (VStr "no") 500);
    [reflexivity | simpl; lia | unfold delay; lia | unfold delay; lia].
Defined.

(** ** The file list and the output name *)

Lemma string_length_app (a b : string) :
  String.length (a +:+ b) = String.length a + String.length b.
Proof. induction a as [|c a IH]; simpl; [done | by rewrite IH]. Qed.

Lemma prefix_length (a b : string) :
  String.prefix a b = true → (String.length a ≤ String.length b)%nat.
Proof.
  revert b. induction a as [|c a IH]; intros b; simpl; [lia |].
  destruct b as [|c' b]; simpl; [done |].
  destruct (ascii_dec c c'); [| done]. intros H%IH. lia.
Qed.

Lemma prefix_refl (a : string) : String.prefix a a = true.
Proof.
  induction a as [|c a IH]; simpl; [done |].
  by destruct (ascii_dec c c).
Qed.

Lemma substring_length (n m : nat) (s : string) :
  (n + m ≤ String.length s)%nat →
  String.length (String.substring n m s) = m.
Proof.
  revert n m. induction s as [|c s IH]; intros n m; simpl.
  - intros H. assert (n = 0) as -> by lia. assert (m = 0) as -> by lia. done.
  - destruct n as [|n]; [destruct m as [|m] |]; simpl; intros H.
    + done.
    + rewrite IH; lia.
    + apply IH. lia.
Qed.

Lemma replace_first_length (pat rep s : string) :
  endsWith s pat = true →
  String.length (replace_first pat rep s) + String.length pat
  = String.length s + String.length rep.
Proof.
  induction s as [|c r IH]; intros He.
  - destruct pat; simpl in He; [| done].
    simpl. rewrite string_length_app. simpl. lia.
  - cbn [replace_first].
    destruct (String.prefix pat (String c r)) eqn:Hp.
    + apply prefix_length in Hp. rewrite string_length_app.
      rewrite substring_length by lia. lia.
    + cbn [endsWith] in He. apply orb_prop in He as [He|He].
      * apply String.eqb_eq in He as <-. by rewrite prefix_refl in Hp.
      * specialize (IH He). simpl. lia.
Qed.

Section FileList.

Variable sortByName : list string → list string.
Hypothesis sortByName_permutes : ∀ l, sortByName l ≡ₚ l.

(** X9.  The file list holds exactly the names of the files of the folder
    that end in [.jsonl] and not in [_annotated.jsonl]: directories and
    annotated outputs are never listed, and nothing else is left out. *)
Theorem file_list_exact (dirEntries : list (entry_kind * string))
  (name : string) :
  name ∈ refreshFileList sortByName dirEntries
  ↔ (KFile, name) ∈ dirEntries
    ∧ endsWith name ".jsonl" = true
    ∧ endsWith name "_annotated.jsonl" = false.
Proof.
  unfold refreshFileList. rewrite sortByName_permutes, list_elem_of_fmap.
  split.
  - intros [[k n] [-> Hin]]. apply list_elem_of_In, filter_In in Hin.
    destruct Hin as [Hin Hl]. apply list_elem_of_In in Hin.
    unfold listable in Hl. simpl in *. destruct k; [| done].
    apply andb_prop in Hl as [H1 H2]. apply negb_true_iff in H2. done.
  - intros (Hin & H1 & H2). exists (KFile, name). split; [done |].
    apply list_elem_of_In, filter_In. split; [by apply list_elem_of_In |].
    unfold listable. simpl. by rewrite H1, H2.
Qed.

End FileList.

Lemma sample_sort_permutes (l : list string) : sample_sort l ≡ₚ l.
Proof. apply merge_sort_Permutation. Qed.

Lemma file_list_exact_witness :
  let dirEntries :=
    [(KFile, "b.jsonl"); (KFile, "a_annotated.jsonl");
     (KDirectory, "x.jsonl"); (KFile, "a.jsonl"); (KFile, "notes.txt")] in
  "a.jsonl" ∈ refreshFileList sample_sort dirEntries
  ↔ (KFile, "a.jsonl") ∈ dirEntries
    ∧ endsWith "a.jsonl" ".jsonl" = true
    ∧ endsWith "a.jsonl" "_annotated.jsonl" = false.
Proof.
  apply (file_list_exact sample_sort sample_sort_permutes
           [(KFile, "b.jsonl"); (KFile, "a_annotated.jsonl");
            (KDirectory, "x.jsonl"); (KFile, "a.jsonl"); (KFile, "notes.txt")]
           "a.jsonl").
Defined.

Example file_list_sample :
  refreshFileList sample_sort
    [(KFile, "b.jsonl"); (KFile, "a_annotated.jsonl");
     (KDirectory, "x.jsonl"); (KFile, "a.jsonl"); (KFile, "notes.txt")]
  = ["a.jsonl"; "b.jsonl"].
Proof. by vm_compute. Qed.

(** X10.  For a file name ending in [.jsonl], as every listed file has, the
    output name is ten characters longer than the name, hence another file:
    the session never writes over the source it was opened from. *)
Theorem output_name_distinct (name : string) :
  endsWith name ".jsonl" = true →
  String.length (outputFilename name) = String.length name + 10
  ∧ outputFilename name ≠ name.
Proof.
  intros He.
  pose proof (replace_first_length ".jsonl" "_annotated.jsonl" name He) as Hl.
  fold (outputFilename name) in Hl. simpl in Hl.
  split; [lia |]. intros Heq. rewrite Heq in Hl. lia.
Qed.

Lemma output_name_distinct_witness :
  String.length (outputFilename "d.jsonl") = String.length "d.jsonl" + 10
  ∧ outputFilename "d.jsonl" ≠ "d.jsonl".
Proof. apply (output_name_distinct "d.jsonl"). reflexivity. Defined.

(** ** More on the grid *)

Module CsvMore.
Import Csv CsvColumns.

Lemma includes_elem (hs : list string) (n : string) :
  includes hs n = true ↔ n ∈ hs.
Proof.
  unfold includes. rewrite existsb_exists. split.
  - intros [x [Hin ->%String.eqb_eq]]. by apply list_elem_of_In.
  - intros Hin. exists n. split; [by apply list_elem_of_In |].
    apply String.eqb_refl.
Qed.

Lemma includes_not_elem (hs : list string) (n : string) :
  includes hs n = false ↔ n ∉ hs.
Proof.
  rewrite <- includes_elem. by destruct (includes hs n).
Qed.

Lemma indexOf_bounds (hs : list string) (h : string) :
  h ∈ hs → (0 ≤ indexOf hs h < Z.of_nat (length hs))%Z.
Proof.
  induction hs as [|x r IH]; [by intros ?%elem_of_nil |].
  intros Hin. cbn [indexOf length].
  destruct (String.eqb_spec x h) as [->|Hne]; [lia |].
  apply elem_of_cons in Hin as [?|Hin]; [congruence |].
  specialize (IH Hin).
  destruct (Z.ltb_spec (indexOf r h) 0); lia.
Qed.

Lemma indexOf_lookup (hs : list string) (n : nat) (h : string) :
  NoDup hs → hs !! n = Some h → indexOf hs h = Z.of_nat n.
Proof.
  intros Hnd. revert n. induction Hnd as [|x r Hx Hnd IH]; intros n; [done |].
  destruct n as [|n]; cbn [indexOf]; simpl.
  - intros [= ->]. by rewrite String.eqb_refl.
  - intros Hn. destruct (String.eqb_spec x h) as [->|Hne].
    + destruct Hx. by eapply list_elem_of_lookup_2.
    + rewrite (IH n Hn). destruct (Z.ltb_spec (Z.of_nat n) 0); lia.
Qed.

Lemma at_index_elem {A} (xs : list A) (i : Z) (x : A) :
  at_index xs i = Some x → x ∈ xs.
Proof.
  unfold at_index. destruct (Z.ltb i 0); [done |].
  apply list_elem_of_lookup_2.
Qed.

Lemma cell_value_backfill (g : grid) (name : string) (hs : list string)
  (sel : option cell) (ed : bool) (cm : option (string * nat))
  (r : Z) (h : string) :
  cell_value (Grid (backfill name (data g)) hs sel ed cm) r h
  = if decide (h = name)
    then (if decide (0 ≤ r < Z.of_nat (length (data g)))%Z
          then Some "" else None)
    else cell_value g r h.
Proof.
  unfold cell_value, at_index, backfill. simpl.
  destruct (Z.ltb_spec r 0) as [Hr|Hr].
  - destruct (decide (h = name)); [| done]. by rewrite decide_False by lia.
  - rewrite list_lookup_fmap.
    destruct (data g !! Z.to_nat r) as [row|] eqn:Hrow; simpl.
    + apply lookup_lt_Some in Hrow.
      destruct (decide (h = name)) as [->|Hne].
      * rewrite decide_True by lia. apply lookup_insert_eq.
      * by rewrite lookup_insert_ne.
    + apply lookup_ge_None in Hrow.
      destruct (decide (h = name)); [| done]. by rewrite decide_False by lia.
Qed.

(** X11.  Inserting a column through the context menu, with a non-empty name
    that is not a header yet: the name is spliced into [headers] left or right
    of the targeted index, the other headers keep their order, every row gets
    the empty string under the new name, every other cell is unchanged, the
    headers stay free of duplicates, and the menu is closed. *)
Theorem insert_column (g : grid) (d : direction) (name header : string)
  (index : nat) :
  contextMenu g = Some (header, index) →
  name ≠ "" →
  name ∉ headers g →
  let i := match d with InsertLeft => index | InsertRight => index + 1 end in
  let g' := handleInsertColumn d (Some name) g in
  headers g' = take i (headers g) ++ name :: drop i (headers g)
  ∧ length (headers g') = S (length (headers g))
  ∧ ((i ≤ length (headers g))%nat → headers g' !! i = Some name)
  ∧ (∀ r, (0 ≤ r < Z.of_nat (length (data g)))%Z →
          cell_value g' r name = Some "")
  ∧ (∀ r h, h ≠ name → cell_value g' r h = cell_value g r h)
  ∧ length (data g') = length (data g)
  ∧ (NoDup (headers g) → NoDup (headers g'))
  ∧ contextMenu g' = None.
Proof.
  intros Hm Hne Hfresh i g'. subst g'. unfold handleInsertColumn.
  rewrite Hm. apply String.eqb_neq in Hne. rewrite Hne.
  rewrite (proj2 (includes_not_elem _ _) Hfresh). cbn [orb].
  fold i. unfold handleCloseContextMenu. cbn [headers data contextMenu].
  split; [done |]. split.
  { rewrite length_app. cbn [length]. rewrite length_take, length_drop. lia. }
  split.
  { intros Hi. rewrite lookup_app_r by (rewrite length_take; lia).
    rewrite length_take. by replace (i - i `min` length (headers g)) with 0 by lia. }
  split.
  { intros r Hr. rewrite cell_value_backfill. rewrite decide_True by done.
    by rewrite decide_True. }
  split.
  { intros r h Hh. rewrite cell_value_backfill. by rewrite decide_False. }
  split; [unfold backfill; by rewrite length_fmap |]. split; [| done].
  intros Hnd. rewrite <- (take_drop i (headers g)) in Hnd, Hfresh.
  apply NoDup_app in Hnd as (H1 & H2 & H3).
  rewrite not_elem_of_app in Hfresh. destruct Hfresh as [Hf1 Hf2].
  apply NoDup_app. split; [done |]. split.
  - intros x Hx [->|Hin]%elem_of_cons; [done | by eapply H2].
  - by apply NoDup_cons.
Qed.

(** X12.  A cancelled prompt, an empty name and the name of an existing
    header are refused: [handleAddColumn] leaves the grid as it is, and
    [handleInsertColumn] only closes the menu. *)
Theorem column_name_refused (g : grid) (d : direction)
  (answer : option string) :
  (answer = None ∨ answer = Some "" ∨ ∃ n, answer = Some n ∧ n ∈ headers g) →
  handleAddColumn answer g = g
  ∧ handleInsertColumn d answer g
    = match contextMenu g with
      | Some _ => handleCloseContextMenu g
      | None => g
      end.
Proof.
  intros H. unfold handleAddColumn, handleInsertColumn.
  destruct H as [-> | [-> | (n & -> & Hin)]].
  - split; [done |]. by destruct (contextMenu g) as [[? ?]|].
  - split; [done |]. by destruct (contextMenu g) as [[? ?]|].
  - apply includes_elem in Hin. rewrite Hin, andb_false_r, orb_true_r.
    split; [done |]. by destruct (contextMenu g) as [[? ?]|].
Qed.

Lemma backfill_invariant (g : grid) (name : string) (hs : list string)
  (sel : option cell) (ed : bool) (cm : option (string * nat)) :
  name ∈ hs → (∀ h, h ∈ headers g → h ∈ hs) →
  (∀ h, h ∈ hs → h = name ∨ h ∈ headers g) →
  row_invariant g → rows_complete g →
  row_invariant (Grid (backfill name (data g)) hs sel ed cm)
  ∧ rows_complete (Grid (backfill name (data g)) hs sel ed cm).
Proof.
  intros Hname Hsub Hsup Hinv Hcom.
  unfold row_invariant, rows_complete, backfill in *. simpl.
  rewrite !Forall_fmap. rewrite !Forall_forall in *. split.
  - intros r Hr k Hk. simpl in Hk. rewrite dom_insert_L in Hk.
    rewrite elem_of_list_to_set.
    apply elem_of_union in Hk as [->%elem_of_singleton|Hk]; [done |].
    apply Hsub. specialize (Hinv r Hr k Hk).
    by rewrite elem_of_list_to_set in Hinv.
  - intros r Hr h Hh. simpl.
    destruct (decide (h = name)) as [->|Hne].
    + rewrite lookup_insert_eq. by eexists.
    + rewrite lookup_insert_ne by done. apply (Hcom r Hr).
      by destruct (Hsup h Hh).
Qed.

(** X13.  Adding, inserting and deleting columns keep the table complete:
    if every row has a value for every header, it still has after any of the
    three operations, whatever the prompt answered; adding and inserting also
    keep the keys of the rows among the headers. *)
Theorem column_operations_keep_rows (g : grid) (d : direction)
  (answer : option string) (confirmed : bool) :
  row_invariant g → rows_complete g →
  (row_invariant (handleAddColumn answer g)
   ∧ rows_complete (handleAddColumn answer g))
  ∧ (row_invariant (handleInsertColumn d answer g)
     ∧ rows_complete (handleInsertColumn d answer g))
  ∧ rows_complete (handleDeleteColumn confirmed g).
Proof.
  intros Hinv Hcom. split; [| split].
  - unfold handleAddColumn. destruct answer as [n|]; [| done].
    destruct (negb (n =? "") && negb (includes (headers g) n)); [| done].
    apply backfill_invariant; try done.
    + apply elem_of_app. right. by left.
    + intros h Hh. apply elem_of_app. by left.
    + intros h [Hh|Hh%list_elem_of_singleton]%elem_of_app; auto.
  - unfold handleInsertColumn. destruct (contextMenu g) as [[hd index]|]; [| done].
    destruct answer as [n|]; [| done].
    destruct ((n =? "") || includes (headers g) n); [done |].
    unfold handleCloseContextMenu. cbn [data headers selectedCell isEditing].
    apply backfill_invariant; try done.
    + apply elem_of_app. right. by left.
    + intros h Hh. rewrite <- (take_drop
        (match d with InsertLeft => index | InsertRight => index + 1 end)
        (headers g)) in Hh.
      apply elem_of_app in Hh as [Hh|Hh]; apply elem_of_app;
        [by left | right; by right].
    + intros h [Hh|[->|Hh]%elem_of_cons]%elem_of_app; [| by left |].
      * right. by eapply subseteq_take.
      * right. by eapply subseteq_drop.
  - unfold handleDeleteColumn. destruct (contextMenu g) as [[hd index]|]; [| done].
    destruct confirmed; [| done].
    unfold rows_complete in *. simpl. eapply Forall_impl; [exact Hcom |].
    intros r Hr h [_ Hh]%list_elem_of_filter. by apply Hr.
Qed.

(** X14.  Deleting a column and adding a column of the same name gives an
    empty column: the name is the last header, every row holds the empty
    string under it, so the values kept in the rows by the deletion never come
    back, and the other cells are unchanged. *)
Theorem delete_then_add_is_empty (g : grid) (header : string) (index : nat) :
  contextMenu g = Some (header, index) →
  header ≠ "" →
  let g' := handleAddColumn (Some header) (handleDeleteColumn true g) in
  headers g' = filter (fun h => h ≠ header) (headers g) ++ [header]
  ∧ (∀ r, (0 ≤ r < Z.of_nat (length (data g)))%Z →
          cell_value g' r header = Some "")
  ∧ (∀ r h, h ≠ header → cell_value g' r h = cell_value g r h).
Proof.
  intros Hm Hne g'. subst g'. unfold handleDeleteColumn. rewrite Hm.
  unfold handleCloseContextMenu, handleAddColumn.
  cbn [data headers selectedCell isEditing contextMenu].
  apply String.eqb_neq in Hne. rewrite Hne.
  assert (Hfresh : header ∉ filter (fun h => h ≠ header) (headers g)).
  { rewrite list_elem_of_filter. by intros [? _]. }
  rewrite (proj2 (includes_not_elem _ _) Hfresh). cbn [negb andb].
  cbn [headers]. split; [done |].
  pose (g0 := Grid (data g) (filter (fun h => h ≠ header) (headers g))
                (selectedCell g) (isEditing g) None).
  change (data g) with (data g0) at 1 3.
  split.
  - intros r Hr. rewrite (cell_value_backfill g0).
    rewrite decide_True by done. by rewrite decide_True.
  - intros r h Hh. rewrite (cell_value_backfill g0).
    by rewrite decide_False.
Qed.

Lemma handleCellChange_keeps (g : grid) (rowIndex : Z) (header x : string) :
  (0 ≤ rowIndex < Z.of_nat (length (data g)))%Z →
  header ∈ headers g →
  row_invariant g → rows_complete g →
  ∃ g1, handleCellChange rowIndex header x g = Some g1
        ∧ headers g1 = headers g
        ∧ length (data g1) = length (data g)
        ∧ row_invariant g1 ∧ rows_complete g1.
Proof.
  intros Hrow Hh Hinv Hcom.
  destruct (CsvFacts.at_index_in_range (data g) rowIndex Hrow) as [old Hold].
  unfold handleCellChange. rewrite Hold. simpl. eexists.
  split; [reflexivity |]. simpl. split; [done |].
  split; [by rewrite length_insert |].
  unfold at_index in Hold. destruct (Z.ltb rowIndex 0); [done |].
  unfold row_invariant, rows_complete in *. simpl.
  pose proof (proj1 (Forall_lookup _ _) Hinv _ _ Hold) as Ho1.
  pose proof (proj1 (Forall_lookup _ _) Hcom _ _ Hold) as Ho2.
  split; apply Forall_insert; try done.
  - intros k Hk. apply elem_of_dom in Hk as [y Hk].
    rewrite CsvFacts.set_cell_lookup in Hk.
    destruct (decide (k = header ∧ _)) as [[-> _]|_];
      [by rewrite elem_of_list_to_set |].
    apply Ho1. apply elem_of_dom. by eexists.
  - intros h Hin. rewrite CsvFacts.set_cell_lookup.
    destruct (decide (h = header ∧ _)); [by eexists | by apply Ho2].
Qed.

(** X15.  The keyboard keeps the grid well formed: a key pressed on a cell of
    the grid, in either mode, never throws, changes neither the headers nor
    the number of rows, leaves the selection on a cell of the grid, and keeps
    the rows' keys among the headers and the table complete. *)
Theorem keyboard_keeps_grid (g : grid) (k : key) (x : string) (rowIndex : Z)
  (header : string) :
  (0 ≤ rowIndex < Z.of_nat (length (data g)))%Z →
  header ∈ headers g →
  selection_in_grid g → row_invariant g → rows_complete g →
  ∃ g', handleKeyDown k x rowIndex header g = Some g'
        ∧ headers g' = headers g
        ∧ length (data g') = length (data g)
        ∧ selection_in_grid g'
        ∧ row_invariant g' ∧ rows_complete g'.
Proof.
  intros Hrow Hh Hsel Hinv Hcom.
  pose proof (indexOf_bounds (headers g) header Hh) as Hidx.
  assert (Hmove : ∀ nextRow nextColIdx,
    (0 ≤ nextRow < Z.of_nat (length (data g)))%Z →
    (0 ≤ nextColIdx < Z.of_nat (length (headers g)))%Z →
    ∃ g', Some (setSelectedCell
                  (Some (Cell nextRow (at_index (headers g) nextColIdx))) g)
          = Some g'
          ∧ headers g' = headers g
          ∧ length (data g') = length (data g)
          ∧ selection_in_grid g'
          ∧ row_invariant g' ∧ rows_complete g').
  { intros nextRow nextColIdx Hr Hc. eexists. split; [reflexivity |].
    split; [done |]. split; [done |]. split; [| by split].
    unfold selection_in_grid. simpl. split; [done |].
    destruct (CsvFacts.at_index_in_range (headers g) nextColIdx Hc) as [h' Hh'].
    exists h'. split; [done |]. by eapply at_index_elem. }
  assert (Hcommit : ∀ nextRow,
    (0 ≤ nextRow < Z.of_nat (length (data g)))%Z →
    ∃ g', (g1 ← handleCellChange rowIndex header x g;
           Some (setSelectedCell (Some (Cell nextRow (Some header)))
                   (setIsEditing false g1))) = Some g'
          ∧ headers g' = headers g
          ∧ length (data g') = length (data g)
          ∧ selection_in_grid g'
          ∧ row_invariant g' ∧ rows_complete g').
  { intros nextRow Hr.
    destruct (handleCellChange_keeps g rowIndex header x Hrow Hh Hinv Hcom)
      as (g1 & Hch & Hhs & Hlen & Hi1 & Hc1).
    rewrite Hch. simpl. eexists. split; [reflexivity |].
    split; [done |]. split; [done |]. split; [| done].
    unfold selection_in_grid. simpl. rewrite Hlen, Hhs. split; [done |].
    by exists header. }
  unfold handleKeyDown. destruct (isEditing g).
  - destruct k;
      try (eexists; split; [reflexivity |];
           split; [done |]; split; [done |]; by split).
    + apply Hcommit. lia.
    + apply Hcommit. lia.
    + apply Hcommit. lia.
  - destruct k; try (apply Hmove; lia).
    eexists. split; [reflexivity |].
    split; [done |]. split; [done |]. by split.
Qed.

(** X16.  ArrowLeft undoes ArrowRight: in Navigate mode, over headers without
    duplicates, ArrowRight on a cell that is not in the last column selects the
    same row in another column, and ArrowLeft pressed there selects the
    original cell again. *)
Theorem left_undoes_right (g : grid) (x : string) (rowIndex : Z)
  (header : string) :
  isEditing g = false →
  NoDup (headers g) →
  header ∈ headers g →
  (indexOf (headers g) header + 1 < Z.of_nat (length (headers g)))%Z →
  ∃ next g1,
    handleKeyDown ArrowRight x rowIndex header g = Some g1
    ∧ selectedCell g1 = Some (Cell rowIndex (Some next))
    ∧ next ≠ header
    ∧ handleKeyDown ArrowLeft x rowIndex next g1
      = Some (setSelectedCell (Some (Cell rowIndex (Some header))) g).
Proof.
  intros Hnav Hnd Hh Hlast.
  pose proof (indexOf_bounds (headers g) header Hh) as Hidx.
  pose proof (CsvFacts.at_index_indexOf (headers g) header Hh) as Hat.
  set (n := Z.to_nat (indexOf (headers g) header)).
  assert (Hn : indexOf (headers g) header = Z.of_nat n) by lia.
  destruct (lookup_lt_is_Some_2 (headers g) (S n)) as [next Hnext]; [lia |].
  assert (Hin : indexOf (headers g) next = Z.of_nat (S n))
    by (by apply indexOf_lookup).
  exists next. eexists. unfold handleKeyDown at 1. rewrite Hnav.
  rewrite Z.min_r by lia.
  assert (Hat' : at_index (headers g) (indexOf (headers g) header + 1)
                 = Some next).
  { unfold at_index. destruct (Z.ltb_spec (indexOf (headers g) header + 1) 0);
      [lia |].
    by replace (Z.to_nat (indexOf (headers g) header + 1)) with (S n) by lia. }
  rewrite Hat'. split; [reflexivity |]. split; [done |]. split.
  - intros ->. lia.
  - unfold handleKeyDown. cbn [isEditing setSelectedCell headers].
    rewrite Hnav, Hin.
    replace (Z.max 0 (Z.of_nat (S n) - 1)) with (indexOf (headers g) header)
      by lia.
    by rewrite Hat.
Qed.

Lemma grid_ab_complete : rows_complete grid_ab.
Proof.
  unfold rows_complete, grid_ab. simpl. constructor; [| constructor].
  intros h [->|[->|[]%elem_of_nil]%elem_of_cons]%elem_of_cons; by eexists.
Qed.

Lemma grid_ab_selection : selection_in_grid grid_ab.
Proof.
  unfold selection_in_grid, grid_ab. simpl. split; [lia |].
  exists "A". split; [done | left].
Qed.

Lemma insert_column_witness :
  let g' := handleInsertColumn InsertRight (Some "Q") grid_ab in
  headers g' = take (0 + 1) (headers grid_ab)
               ++ "Q" :: drop (0 + 1) (headers grid_ab)
  ∧ length (headers g') = S (length (headers grid_ab))
  ∧ ((0 + 1 ≤ length (headers grid_ab))%nat → headers g' !! (0 + 1) = Some "Q")
  ∧ (∀ r, (0 ≤ r < Z.of_nat (length (data grid_ab)))%Z →
          cell_value g' r "Q" = Some "")
  ∧ (∀ r h, h ≠ "Q" → cell_value g' r h = cell_value grid_ab r h)
  ∧ length (data g') = length (data grid_ab)
  ∧ (NoDup (headers grid_ab) → NoDup (headers g'))
  ∧ contextMenu g' = None.
Proof.
  apply (insert_column grid_ab InsertRight "Q" "A" 0);
    [reflexivity | discriminate | apply includes_not_elem; reflexivity].
Defined.

Lemma column_name_refused_witness :
  handleAddColumn (Some "B") grid_ab = grid_ab
  ∧ handleInsertColumn InsertLeft (Some "B") grid_ab
    = match contextMenu grid_ab with
      | Some _ => handleCloseContextMenu grid_ab
      | None => grid_ab
      end.
Proof.
  apply (column_name_refused grid_ab InsertLeft (Some "B")).
  right. right. exists "B". split; [reflexivity |].
  apply includes_elem. reflexivity.
Defined.

Lemma column_operations_keep_rows_witness :
  (row_invariant (handleAddColumn (Some "Q") grid_ab)
   ∧ rows_complete (handleAddColumn (Some "Q") grid_ab))
  ∧ (row_invariant (handleInsertColumn InsertLeft (Some "Q") grid_ab)
     ∧ rows_complete (handleInsertColumn InsertLeft (Some "Q") grid_ab))
  ∧ rows_complete (handleDeleteColumn true grid_ab).
Proof.
  apply (column_operations_keep_rows grid_ab InsertLeft (Some "Q") true);
    [apply CsvFacts.grid_ab_invariant | apply grid_ab_complete].
Defined.

Lemma delete_then_add_is_empty_witness :
  let g' := handleAddColumn (Some "A") (handleDeleteColumn true grid_ab) in
  headers g' = filter (fun h => h ≠ "A") (headers grid_ab) ++ ["A"]
  ∧ (∀ r, (0 ≤ r < Z.of_nat (length (data grid_ab)))%Z →
          cell_value g' r "A" = Some "")
  ∧ (∀ r h, h ≠ "A" → cell_value g' r h = cell_value grid_ab r h).
Proof.
  apply (delete_then_add_is_empty grid_ab "A" 0); [reflexivity | discriminate].
Defined.

Lemma keyboard_keeps_grid_witness :
  ∃ g', handleKeyDown ArrowDown "X" 0 "A" grid_ab = Some g'
        ∧ headers g' = headers grid_ab
        ∧ length (data g') = length (data grid_ab)
        ∧ selection_in_grid g'
        ∧ row_invariant g' ∧ rows_complete g'.
Proof.
  apply (keyboard_keeps_grid grid_ab ArrowDown "X" 0 "A");
    [simpl; lia | left | apply grid_ab_selection
    | apply CsvFacts.grid_ab_invariant | apply grid_ab_complete].
Defined.

Lemma left_undoes_right_witness :
  let g := setIsEditing false grid_ab in
  ∃ next g1,
    handleKeyDown ArrowRight "" 0 "A" g = Some g1
    ∧ selectedCell g1 = Some (Cell 0 (Some next))
    ∧ next ≠ "A"
    ∧ handleKeyDown ArrowLeft "" 0 next g1
      = Some (setSelectedCell (Some (Cell 0 (Some "A"))) g).
Proof.
  apply (left_undoes_right (setIsEditing false grid_ab) "" 0 "A");
    [reflexivity
    | apply NoDup_cons; split;
        [by intros ?%list_elem_of_singleton | apply NoDup_singleton]
    | left
    | vm_compute; reflexivity].
Defined.

End CsvMore.

(** ** Resizing *)

Module CsvResizeFacts.
Import CsvResize.

Lemma initial_widths_lookup (widths : gmap string size) (hs : list string)
  (acc : gmap string size) (k : string) :
  foldl (fun acc h =>
           if width_falsy (width_of widths h)
           then set_default_width acc h else acc) acc hs !! k
  = if decide (k ∈ hs ∧ width_falsy (width_of widths k) = true ∧ k ≠ PROTO)
    then Some (Px 150) else acc !! k.
Proof.
  revert acc. induction hs as [|h hs IH]; intros acc; cbn [foldl].
  - rewrite decide_False; [done |]. intros [Hin _]. by apply elem_of_nil in Hin.
  - rewrite IH. destruct (decide (k ∈ hs ∧ _)) as [(Hin & Hf & Hp)|Hn].
    + rewrite decide_True; [done |]. split; [by right | done].
    + destruct (decide (k = h)) as [->|Hne].
      * destruct (width_falsy (width_of widths h)) eqn:Hf.
        -- unfold set_default_width.
           destruct (String.eqb_spec h "__proto__") as [->|Hp].
           ++ rewrite decide_False; [done |]. by intros (_ & _ & Hp).
           ++ rewrite lookup_insert_eq. rewrite decide_True; [done |].
              split; [left | done].
        -- rewrite decide_False; [done |]. by intros (_ & Hf' & _).
      * assert (Hacc : (if width_falsy (width_of widths h)
                        then set_default_width acc h else acc) !! k = acc !! k).
        { destruct (width_falsy (width_of widths h)); [| done].
          unfold set_default_width.
          destruct (String.eqb h "__proto__"); [done |].
          by rewrite lookup_insert_ne. }
        rewrite Hacc. rewrite decide_False; [done |].
        intros (Hin & Hf & Hp). apply Hn.
        apply elem_of_cons in Hin as [?|Hin]; [done |]. done.
Qed.

Lemma initializeWidths_lookup (hs : list string) (st : resize) (k : string) :
  columnWidths (initializeWidths hs st) !! k
  = if decide (k ∈ hs ∧ width_falsy (width_of (columnWidths st) k) = true
               ∧ k ≠ PROTO)
    then Some (Px 150) else columnWidths st !! k.
Proof.
  unfold initializeWidths. cbn [columnWidths]. rewrite lookup_union.
  rewrite initial_widths_lookup, lookup_empty.
  destruct (decide _); [by destruct (columnWidths st !! k) |].
  by destruct (columnWidths st !! k).
Qed.

Lemma resize_step_bounded (st : resize) (e : resize_event) :
  sizes_bounded st ∧ drag_ok st →
  sizes_bounded (resize_step st e) ∧ drag_ok (resize_step st e).
Proof.
  intros [[Hc Hr] Hd]. destruct e as [x y t|x y| |hs]; cbn [resize_step].
  - split; [done |]. unfold drag_ok, handleMouseDown. cbn [resizingRef].
    destruct t as [id|id].
    + unfold width_of.
      destruct (columnWidths st !! id) as [[n|]|]; cbn [width_or].
      * by destruct (Z.eqb n 0).
      * done.
      * by destruct (includes OBJECT_PROTOTYPE id) eqn:Hi.
    + destruct (rowHeights st !! id) as [[n|]|]; cbn [height_or];
        [| done | done].
      by destruct (Z.eqb n 0).
  - unfold handleMouseMove, drag_ok in *.
    destruct (resizingRef st) as [[[[id|id] start] [n|name]]|] eqn:Href;
      cbn [plus Math_max].
    + split; [| by cbn [resizingRef]]. split; [| done].
      cbn [columnWidths]. intros h w.
      destruct (decide (id = h)) as [->|Hne].
      * rewrite lookup_insert_eq. intros [= <-]. lia.
      * rewrite lookup_insert_ne by done. apply Hc.
    + destruct Hd as [-> Hi].
      split; [| by cbn [resizingRef]]. split; [| done].
      cbn [columnWidths]. intros h w.
      destruct (decide (id = h)) as [->|Hne].
      * rewrite lookup_insert_eq. by intros [= <-].
      * rewrite lookup_insert_ne by done. apply Hc.
    + split; [| by cbn [resizingRef]]. split; [done |].
      cbn [rowHeights]. intros i w.
      destruct (decide (id = i)) as [->|Hne].
      * rewrite lookup_insert_eq. intros [= <-]. eexists. split; [done | lia].
      * rewrite lookup_insert_ne by done. apply Hr.
    + done.
    + split; [done |]. by rewrite Href.
  - unfold handleMouseUp, drag_ok in *.
    destruct (resizingRef st) eqn:Href; cbn; [done |]. split; [done |].
    by rewrite Href.
  - split; [| done]. split; [| done]. intros h w.
    rewrite initializeWidths_lookup.
    destruct (decide _); [intros [= <-]; lia | apply Hc].
Qed.

(** X17.  Sizes never go below their minimum, NaN apart: after any sequence
    of pointer events and header changes, starting with no stored size, every
    stored column width is a number that is at least 50, or NaN under a column
    name that [Object.prototype] has (a drag of such a column adds its inherited
    member to the pointer distance); every stored row height is a number that
    is at least 30. *)
Theorem sizes_always_bounded (evs : list resize_event) :
  sizes_bounded (foldl resize_step resize_init evs).
Proof.
  assert (H0 : sizes_bounded resize_init ∧ drag_ok resize_init).
  { split; [split; intros ? ?; done | done]. }
  revert H0. generalize resize_init.
  induction evs as [|e evs IH]; intros st Hst; simpl; [by destruct Hst |].
  apply IH. by apply resize_step_bounded.
Qed.

(** X18.  A drag: pressing a column handle at [x0] and moving to [x1] sets the
    width of that column to max(50, w + (x1 - x0)), where [w] is its stored
    width, or 150 when the stored width is missing, zero or NaN; but when the
    column has no stored width and its name is that of a member of
    [Object.prototype], the read finds that member and the width becomes NaN.
    No other width and no height is touched.  For a row handle the same holds
    with the vertical coordinate, the minimum 30 and the start height 30 when
    the stored one is missing, zero or NaN. *)
Theorem drag_sets_size (st : resize) (x0 y0 x1 y1 : Z) (h : string) (i : nat) :
  let c := handleMouseMove x1 y1 (handleMouseDown x0 y0 (Column h) st) in
  let r := handleMouseMove x1 y1 (handleMouseDown x0 y0 (RowOf i) st) in
  let stored (x : option size) (d : Z) : Z :=
    match x with
    | Some (Px n) => if Z.eqb n 0 then d else n
    | _ => d
    end in
  (columnWidths c !! h
     = Some (if decide (columnWidths st !! h = None
                        ∧ includes OBJECT_PROTOTYPE h = true)
             then NaN
             else Px (Z.max 50 (stored (columnWidths st !! h) 150%Z + (x1 - x0))))
   ∧ (∀ h', h' ≠ h → columnWidths c !! h' = columnWidths st !! h')
   ∧ rowHeights c = rowHeights st)
  ∧ (rowHeights r !! i
       = Some (Px (Z.max 30 (stored (rowHeights st !! i) 30%Z + (y1 - y0))))
     ∧ (∀ i', i' ≠ i → rowHeights r !! i' = rowHeights st !! i')
     ∧ columnWidths r = columnWidths st).
Proof.
  intros c r stored. subst c r. unfold handleMouseMove, handleMouseDown.
  cbn [resizingRef columnWidths rowHeights].
  split; (split; [rewrite lookup_insert_eq; f_equal |]);
    try (split; [intros ? ?; by rewrite lookup_insert_ne | done]).
  - unfold width_of, stored.
    destruct (columnWidths st !! h) as [[n|]|] eqn:Hw; cbn [width_or].
    + rewrite decide_False by (by intros [? _]). by destruct (Z.eqb n 0).
    + by rewrite decide_False by (by intros [? _]).
    + destruct (includes OBJECT_PROTOTYPE h) eqn:Hi; cbn [width_or plus Math_max].
      * by rewrite decide_True.
      * by rewrite decide_False by (by intros [_ ?]).
  - unfold stored.
    destruct (rowHeights st !! i) as [[n|]|]; cbn [height_or]; [| done | done].
    by destruct (Z.eqb n 0).
Qed.

(** X19.  Within a drag only the last pointer position counts: a move
    followed by another move gives the state of the second move alone, since
    sizes are measured from the start of the drag; and once the button is
    released a move changes nothing. *)
Theorem last_move_wins (st : resize) (x1 y1 x2 y2 : Z) :
  handleMouseMove x2 y2 (handleMouseMove x1 y1 st) = handleMouseMove x2 y2 st
  ∧ handleMouseMove x2 y2 (handleMouseUp st) = handleMouseUp st.
Proof.
  split.
  - unfold handleMouseMove.
    destruct (resizingRef st) as [[[[id|id] start] startSize]|] eqn:Hr;
      simpl; rewrite ?Hr; [| | done]; by rewrite insert_insert_eq.
  - unfold handleMouseUp.
    destruct (resizingRef st) as [p|] eqn:Hr; unfold handleMouseMove.
    + done.
    + by rewrite Hr.
Qed.

(** X20.  After the effect that follows a change of headers, a header gets
    the width 150 exactly when the read of its width was falsy and its name is
    not [__proto__]: that is, when its stored width was zero or NaN, or when it
    had none and its name is not that of a member of [Object.prototype].  A
    header named like such a member and without a stored width gets none, and
    every other width is kept. *)
Theorem headers_get_widths (hs : list string) (st : resize) (h : string) :
  columnWidths (initializeWidths hs st) !! h
  = if decide (h ∈ hs ∧ h ≠ PROTO
               ∧ (columnWidths st !! h = Some (Px 0)
                  ∨ columnWidths st !! h = Some NaN
                  ∨ (columnWidths st !! h = None
                     ∧ includes OBJECT_PROTOTYPE h = false)))
    then Some (Px 150) else columnWidths st !! h.
Proof.
  rewrite initializeWidths_lookup.
  assert (Hf : width_falsy (width_of (columnWidths st) h) = true
               ↔ (columnWidths st !! h = Some (Px 0)
                  ∨ columnWidths st !! h = Some NaN
                  ∨ (columnWidths st !! h = None
                     ∧ includes OBJECT_PROTOTYPE h = false))).
  { unfold width_of.
    destruct (columnWidths st !! h) as [[n|]|]; cbn [width_falsy].
    - split.
      + intros E. apply Z.eqb_eq in E. subst. by left.
      + intros [[= ->]|[?|[? _]]]; done.
    - split; [by right; left | done].
    - destruct (includes OBJECT_PROTOTYPE h); cbn [width_falsy].
      + split; [done |]. by intros [?|[?|[_ ?]]].
      + split; [| done]. intros _. right; right. done. }
  destruct (decide (h ∈ hs ∧ width_falsy _ = true ∧ _)) as [(Hin & Hw & Hp)|Hn].
  - rewrite decide_True; [done |]. split; [done |]. split; [done |]. by apply Hf.
  - rewrite decide_False; [done |]. intros (Hin & Hp & Hw). apply Hn.
    split; [done |]. split; [by apply Hf | done].
Qed.

End CsvResizeFacts.
